(** * Crowd_Count: the YOLOv8 decode-and-suppress pipeline of [modelUtils.ts]

    A shallow embedding of [calculateIOU], [nonMaxSuppression] and
    [parseYOLOv8Output], and the properties the specification states about
    them.

    The source computes on JavaScript numbers.  The embedding is written once
    over an interface [JSNumber] of the number operations the source uses, and
    the interface has two implementations:

    - [binary64]: IEEE 754 double precision (Rocq's primitive floats), which
      is what a JavaScript engine computes, used to run the code on concrete
      inputs;
    - [xq]: exact rational arithmetic extended with the special values
      [+Infinity], [-Infinity] and [NaN] of IEEE 754 (division by zero,
      [0/0], [Infinity - Infinity], [0 * Infinity] and comparisons with [NaN]
      behave as in JavaScript; rounding, overflow and the sign of zero are
      abstracted), used for the theorems that rest on the order of the
      numbers and on NaN only.

    The theorems that bound computed values (coordinates, confidences, the
    IOU) are proved for every implementation that obeys the laws of
    [IEEEOrder], [IEEERounding] and [IEEEOverlap]: the order of the numbers,
    the propagation of NaN and the monotonicity of rounding, which hold where
    sums and products round, overflow to an infinity or underflow to zero.
    [xq] obeys the laws (proved below); for [binary64] they are the laws of
    round-to-nearest arithmetic and are evaluated on boundary values in
    [binary64_laws_sampled]. *)

From Stdlib Require Import ZArith QArith Qcanon PrimFloat Uint63 Lia Lqa Sorted.
From stdpp Require Import base list strings.

Local Open Scope Z_scope.

(** ** JavaScript numbers *)

Declare Scope js_scope.
Delimit Scope js_scope with js.

Class JSNumber (N : Type) := {
  NaN : N;
  Infinity : N;
  ofZ : Z -> N;                       (* an integer literal, index or length *)
  neg : N -> N;                       (* unary minus *)
  add : N -> N -> N;
  sub : N -> N -> N;
  mul : N -> N -> N;
  div : N -> N -> N;
  lt : N -> N -> bool;                (* [a < b]; false when either is NaN *)
  strictEq : N -> N -> bool;          (* [a === b]; NaN differs from itself *)
  max2 : N -> N -> N;                 (* one step of Math.max *)
  min2 : N -> N -> N                  (* one step of Math.min *)
}.

Infix "+" := add : js_scope.
Infix "-" := sub : js_scope.
Infix "*" := mul : js_scope.
Infix "/" := div : js_scope.
Infix "<?" := lt : js_scope.
Notation "a >? b" := (lt b a) : js_scope.

(** *** Exact arithmetic with the IEEE special values *)

Inductive xq : Type :=
  | Fin (q : Qc)
  | PInf
  | NInf
  | XNaN.

(** The sign of a number that is not NaN: [Lt] negative, [Eq] zero, [Gt]
    positive. *)
Definition xq_sgn (a : xq) : comparison :=
  match a with
  | Fin q => (q ?= 0)%Qc
  | PInf => Gt
  | NInf => Lt
  | XNaN => Eq
  end.

Definition sgn_mul (s t : comparison) : comparison :=
  match s, t with
  | Eq, _ | _, Eq => Eq
  | Lt, Lt | Gt, Gt => Gt
  | Lt, Gt | Gt, Lt => Lt
  end.

(** The infinity of a sign; the zero sign stands for the invalid operations
    [0 * Infinity] and [0 / 0]. *)
Definition xq_inf (s : comparison) : xq :=
  match s with
  | Gt => PInf
  | Lt => NInf
  | Eq => XNaN
  end.

Definition xq_neg (a : xq) : xq :=
  match a with
  | Fin q => Fin (- q)%Qc
  | PInf => NInf
  | NInf => PInf
  | XNaN => XNaN
  end.

Definition xq_add (a b : xq) : xq :=
  match a, b with
  | XNaN, _ | _, XNaN => XNaN
  | Fin p, Fin q => Fin (p + q)%Qc
  | PInf, NInf | NInf, PInf => XNaN
  | PInf, _ | _, PInf => PInf
  | NInf, _ | _, NInf => NInf
  end.

Definition xq_sub (a b : xq) : xq := xq_add a (xq_neg b).

Definition xq_mul (a b : xq) : xq :=
  match a, b with
  | XNaN, _ | _, XNaN => XNaN
  | Fin p, Fin q => Fin (p * q)%Qc
  | _, _ => xq_inf (sgn_mul (xq_sgn a) (xq_sgn b))
  end.

Definition xq_div (a b : xq) : xq :=
  match a, b with
  | XNaN, _ | _, XNaN => XNaN
  | Fin p, Fin q =>
      match (q ?= 0)%Qc with
      | Eq => xq_inf (p ?= 0)%Qc
      | _ => Fin (p / q)%Qc
      end
  | Fin _, _ => Fin 0%Qc
  | _, Fin q => xq_inf (sgn_mul (xq_sgn a) (match (q ?= 0)%Qc with Lt => Lt | _ => Gt end))
  | _, _ => XNaN
  end.

Definition xq_lt (a b : xq) : bool :=
  match a, b with
  | XNaN, _ | _, XNaN => false
  | Fin p, Fin q => match (p ?= q)%Qc with Lt => true | _ => false end
  | _, NInf => false
  | NInf, _ => true
  | PInf, _ => false
  | _, PInf => true
  end.

Definition xq_strictEq (a b : xq) : bool :=
  match a, b with
  | Fin p, Fin q => match (p ?= q)%Qc with Eq => true | _ => false end
  | PInf, PInf | NInf, NInf => true
  | _, _ => false
  end.

Definition xq_isNaN (a : xq) : bool :=
  match a with XNaN => true | _ => false end.

Definition xq_max2 (a b : xq) : xq :=
  if xq_isNaN a || xq_isNaN b then XNaN else if xq_lt a b then b else a.

Definition xq_min2 (a b : xq) : xq :=
  if xq_isNaN a || xq_isNaN b then XNaN else if xq_lt b a then b else a.

#[export] Instance xq_number : JSNumber xq := {|
  NaN := XNaN;
  Infinity := PInf;
  ofZ := fun z => Fin (Q2Qc (inject_Z z));
  neg := xq_neg;
  add := xq_add;
  sub := xq_sub;
  mul := xq_mul;
  div := xq_div;
  lt := xq_lt;
  strictEq := xq_strictEq;
  max2 := xq_max2;
  min2 := xq_min2
|}.

(** The rational [n / d] as a number. *)
Definition frac (n : Z) (d : positive) : xq := Fin (Q2Qc (n # d)).

(** *** IEEE 754 binary64 *)

Definition f64_isNaN (a : float) : bool := negb (PrimFloat.eqb a a).

(** Math.max orders [+0] above [-0]: the sum of two zeros is [-0] only when
    both are. *)
Definition f64_max2 (a b : float) : float :=
  if f64_isNaN a || f64_isNaN b then PrimFloat.nan
  else if PrimFloat.ltb a b then b
  else if PrimFloat.ltb b a then a
  else if PrimFloat.is_zero a then PrimFloat.add a b
  else a.

Definition f64_min2 (a b : float) : float :=
  if f64_isNaN a || f64_isNaN b then PrimFloat.nan
  else if PrimFloat.ltb b a then b
  else if PrimFloat.ltb a b then a
  else if PrimFloat.is_zero a
       then PrimFloat.opp (PrimFloat.add (PrimFloat.opp a) (PrimFloat.opp b))
  else a.

Definition f64_ofZ (z : Z) : float :=
  match z with
  | Zneg p => PrimFloat.opp (PrimFloat.of_uint63 (Uint63.of_Z (Zpos p)))
  | _ => PrimFloat.of_uint63 (Uint63.of_Z z)
  end.

Definition binary64 : JSNumber float := {|
  NaN := PrimFloat.nan;
  Infinity := PrimFloat.infinity;
  ofZ := f64_ofZ;
  neg := PrimFloat.opp;
  add := PrimFloat.add;
  sub := PrimFloat.sub;
  mul := PrimFloat.mul;
  div := PrimFloat.div;
  lt := PrimFloat.ltb;
  strictEq := PrimFloat.eqb;
  max2 := f64_max2;
  min2 := f64_min2
|}.

(** ** The class label table *)

Definition CLASS_LABELS : list string := [
  "person"; "bicycle"; "car"; "motorcycle"; "airplane"; "bus"; "train"; "truck"; "boat"; "traffic light";
  "fire hydrant"; "stop sign"; "parking meter"; "bench"; "bird"; "cat"; "dog"; "horse"; "sheep"; "cow";
  "elephant"; "bear"; "zebra"; "giraffe"; "backpack"; "umbrella"; "handbag"; "tie"; "suitcase"; "frisbee";
  "skis"; "snowboard"; "sports ball"; "kite"; "baseball bat"; "baseball glove"; "skateboard"; "surfboard";
  "tennis racket"; "bottle"; "wine glass"; "cup"; "fork"; "knife"; "spoon"; "bowl"; "banana"; "apple";
  "sandwich"; "orange"; "broccoli"; "carrot"; "hot dog"; "pizza"; "donut"; "cake"; "chair"; "couch";
  "potted plant"; "bed"; "dining table"; "toilet"; "tv"; "laptop"; "mouse"; "remote"; "keyboard"; "cell phone";
  "microwave"; "oven"; "toaster"; "sink"; "refrigerator"; "book"; "clock"; "vase"; "scissors"; "teddy bear";
  "hair drier"; "toothbrush"
]%string.

(** ** Arrays

    [arr[k]] for a number [k] that may be [-1] (the result of a failed
    [indexOf]): [None] is JavaScript's [undefined]. *)
Definition at_index {A : Type} (arr : list A) (k : Z) : option A :=
  if (k <? 0)%Z then None else arr !! Z.to_nat k.

(** [arr.slice(start, stop)] for [0 <= start <= stop]. *)
Definition slice {A : Type} (arr : list A) (start stop : nat) : list A :=
  take (stop - start) (drop start arr).

(** The truth value of an array element that may be [undefined]. *)
Definition truthy (v : option bool) : bool := default false v.

Section Pipeline.
Context {N : Type} `{JSNumber N}.
Local Open Scope js_scope.

Definition zero : N := ofZ 0.

(** [ToNumber] of a value that may be [undefined]. *)
Definition toNumber (v : option N) : N := default NaN v.

(** [Math.max(...args)] and [Math.min(...args)]. *)
Definition Math_max (args : list N) : N := fold_left max2 args (neg Infinity).
Definition Math_min (args : list N) : N := fold_left min2 args Infinity.

(** [arr.indexOf(v)]: the first index whose element is [=== v], else -1. *)
Fixpoint indexOf_from (arr : list N) (v : N) (k : Z) : Z :=
  match arr with
  | [] => -1
  | x :: arr' => if strictEq x v then k else indexOf_from arr' v (k + 1)
  end.
Definition indexOf (arr : list N) (v : N) : Z := indexOf_from arr v 0.

(** [arr.sort(compareFn)].  ECMAScript requires the sort to be stable and
    fixes its result whenever [compareFn] is a consistent comparator: the
    elements in ascending [compareFn] order, equal ones in their original
    order.  This is the stable insertion sort: an element moves behind the
    elements that [compareFn] puts strictly before it ([compareFn(x, y) > 0]
    puts [y] first; a [NaN] result counts as 0). *)
Fixpoint sort_insert {A : Type} (compareFn : A -> A -> N) (x : A) (l : list A) : list A :=
  match l with
  | [] => [x]
  | y :: l' =>
      if compareFn x y >? zero then y :: sort_insert compareFn x l'
      else x :: y :: l'
  end.
Definition Array_sort {A : Type} (compareFn : A -> A -> N) (l : list A) : list A :=
  foldr (sort_insert compareFn) [] l.

(** *** Detections *)

Definition Box : Type := N * N * N * N.   (* [x1, y1, x2, y2] *)

Record Detection : Type := {
  box : Box;
  confidence : N;
  classId : Z
}.

(** *** calculateIOU *)

Definition calculateIOU (box1 box2 : Box) : N :=
  let '(x1, y1, x2, y2) := box1 in
  let '(X1, Y1, X2, Y2) := box2 in
  let xi1 := Math_max [x1; X1] in
  let yi1 := Math_max [y1; Y1] in
  let xi2 := Math_min [x2; X2] in
  let yi2 := Math_min [y2; Y2] in
  let interArea := Math_max [zero; xi2 - xi1] * Math_max [zero; yi2 - yi1] in
  let box1Area := (x2 - x1) * (y2 - y1) in
  let box2Area := (X2 - X1) * (Y2 - Y1) in
  interArea / (box1Area + box2Area - interArea).

(** *** nonMaxSuppression *)

(** An element of the [selected] array. *)
Record Selected : Type := {
  selectedBox : Box;              (* box *)
  selectedConfidence : N;         (* confidence *)
  originalIndex : nat
}.

(** Both arrays are read at indices of [confidences].  Past the end of an
    array the source reads [undefined]; the embedding then reads the
    placeholder below.  That only happens when [confidences] is longer than
    [boxes], never in [parseYOLOv8Output], which pushes to both together
    (see [candidates_parallel] and [indices_in_range]). *)
Definition undefinedBox : Box := (NaN, NaN, NaN, NaN).
Definition boxAt (boxes : list Box) (idx : nat) : Box :=
  default undefinedBox (boxes !! idx).
Definition numberAt (arr : list N) (idx : nat) : N := toNumber (arr !! idx).

(** [confidences.map((conf, idx) => ({conf, idx}))
      .sort((a, b) => b.conf - a.conf).map(item => item.idx)] *)
Definition sortedIndices (confidences : list N) : list nat :=
  snd <$> Array_sort (fun a b => fst b - fst a)
                     (imap (fun idx conf => (conf, idx)) confidences).

(** The inner loop, [for (let j = i + 1; j < indices.length; j++)], over the
    indices behind position [i].  A write past the end of [suppressed] would
    extend the array in the source and is dropped here; it needs an index of
    [confidences] that [boxes] does not have. *)
Definition suppressLoop (boxes : list Box) (iouThreshold : N) (idx : nat)
    (later : list nat) (suppressed : list bool) : list bool :=
  fold_left (fun suppressed nextIdx =>
               if truthy (suppressed !! nextIdx) then suppressed
               else
                 let iou := calculateIOU (boxAt boxes idx) (boxAt boxes nextIdx) in
                 if iou >? iouThreshold then <[nextIdx := true]> suppressed
                 else suppressed)
            later suppressed.

(** The outer loop, [for (let i = 0; i < indices.length; i++)], over the
    indices from position [i] on. *)
Fixpoint selectLoop (boxes : list Box) (confidences : list N) (iouThreshold : N)
    (indices : list nat) (selected : list Selected) (suppressed : list bool)
    : list Selected :=
  match indices with
  | [] => selected
  | idx :: later =>
      if truthy (suppressed !! idx)
      then selectLoop boxes confidences iouThreshold later selected suppressed
      else
        let selected := selected ++ [ {| selectedBox := boxAt boxes idx;
                                         selectedConfidence := numberAt confidences idx;
                                         originalIndex := idx |} ] in
        let suppressed := suppressLoop boxes iouThreshold idx later suppressed in
        selectLoop boxes confidences iouThreshold later selected suppressed
  end.

Definition nonMaxSuppression (boxes : list Box) (confidences : list N)
    (iouThreshold : N) : list Selected :=
  if (length boxes =? 0)%nat then []
  else
    let indices := sortedIndices confidences in
    let suppressed := replicate (length boxes) false in
    selectLoop boxes confidences iouThreshold indices [] suppressed.

(** *** parseYOLOv8Output *)

Definition numValuesPerPrediction : nat := 84.

(** The three arrays the loop fills. *)
Record Candidates : Type := {
  boxes : list Box;
  confidences : list N;
  classIds : list Z
}.

Definition noCandidates : Candidates :=
  {| boxes := []; confidences := []; classIds := [] |}.

(** [CLASS_LABELS[classId] === 'person'] *)
Definition isPerson (classId : Z) : bool :=
  bool_decide (at_index CLASS_LABELS classId = Some "person"%string).

Section Body.
Variables (data : list N) (originalWidth originalHeight : N)
          (confidenceThreshold modelInputSize : N).

(** The destructured prediction record; every field may be [undefined]
    when the slice is short. *)
Definition predictionSlice (i : nat) : list N :=
  let offset := (i * numValuesPerPrediction)%nat in
  slice data offset (offset + numValuesPerPrediction).

Definition class_confs (i : nat) : list N := drop 5 (predictionSlice i).

Definition classIdOf (i : nat) : Z :=
  indexOf (class_confs i) (Math_max (class_confs i)).

Definition totalConfidenceOf (i : nat) : N :=
  let obj_conf := predictionSlice i !! 4%nat in
  let classConfidence := at_index (class_confs i) (classIdOf i) in
  toNumber obj_conf * toNumber classConfidence.

(** The test of the [if] in the loop body. *)
Definition retained (i : nat) : bool :=
  (totalConfidenceOf i >? confidenceThreshold) && isPerson (classIdOf i).

(** The box pushed by the loop body. *)
Definition mappedBox (i : nat) : Box :=
  let x_center_norm := toNumber (predictionSlice i !! 0%nat) in
  let y_center_norm := toNumber (predictionSlice i !! 1%nat) in
  let w_norm := toNumber (predictionSlice i !! 2%nat) in
  let h_norm := toNumber (predictionSlice i !! 3%nat) in
  let x_center_model := x_center_norm * modelInputSize in
  let y_center_model := y_center_norm * modelInputSize in
  let w_model := w_norm * modelInputSize in
  let h_model := h_norm * modelInputSize in
  let x1_model := x_center_model - w_model / ofZ 2 in
  let y1_model := y_center_model - h_model / ofZ 2 in
  let x2_model := x_center_model + w_model / ofZ 2 in
  let y2_model := y_center_model + h_norm / ofZ 2 in
  let scaleX := originalWidth / modelInputSize in
  let scaleY := originalHeight / modelInputSize in
  let x1_orig := x1_model * scaleX in
  let y1_orig := y1_model * scaleY in
  let x2_orig := x2_model * scaleX in
  let y2_orig := y2_model * scaleY in
  (x1_orig, y1_orig, x2_orig, y2_orig).

(** One iteration of [for (let i = 0; i < numPredictions; i++)]. *)
Definition loopBody (i : nat) (acc : Candidates) : Candidates :=
  if retained i then
    {| boxes := boxes acc ++ [mappedBox i];
       confidences := confidences acc ++ [totalConfidenceOf i];
       classIds := classIds acc ++ [classIdOf i] |}
  else acc.

Definition numPredictions : N :=
  ofZ (Z.of_nat (length data)) / ofZ (Z.of_nat numValuesPerPrediction).

(** The loop from [i] on; [fuel] bounds the iterations left. *)
Fixpoint forLoop (fuel : nat) (i : nat) (acc : Candidates) : Candidates :=
  match fuel with
  | O => acc
  | S fuel' =>
      if ofZ (Z.of_nat i) <? numPredictions
      then forLoop fuel' (S i) (loopBody i acc)
      else acc
  end.

(** The loop runs at most once per tensor value ([i < length / 84] fails
    from [i = length] on; see [forLoop_fuel]). *)
Definition collectCandidates : Candidates :=
  forLoop (S (length data)) 0 noCandidates.
End Body.

Definition parseYOLOv8Output (outputTensor : list N)
    (originalWidth originalHeight : N)
    (confidenceThreshold iouThreshold modelInputSize : N) : list Detection :=
  let cands := collectCandidates outputTensor originalWidth originalHeight
                                 confidenceThreshold modelInputSize in
  let filteredIndices :=
    nonMaxSuppression (boxes cands) (confidences cands) iouThreshold in
  (fun item => {| box := selectedBox item;
                  confidence := selectedConfidence item;
                  classId := default (-1) (classIds cands !! originalIndex item) |})
    <$> filteredIndices.

(** How a call completes: it returns a value or throws.  The body of
    [parseYOLOv8Output] has no [throw], and the operations it applies (array
    reads, [slice], [indexOf], [Math.max], arithmetic, [sort], [push]) throw on
    no array of numbers: every call returns. *)
Inductive Completion (A : Type) : Type :=
  | Returns (value : A)
  | Throws (error : string).

Definition parseYOLOv8Output_call (outputTensor : list N)
    (originalWidth originalHeight : N)
    (confidenceThreshold iouThreshold modelInputSize : N)
    : Completion (list Detection) :=
  Returns _ (parseYOLOv8Output outputTensor originalWidth originalHeight
                               confidenceThreshold iouThreshold modelInputSize).

End Pipeline.

Arguments Returns {A} value.
Arguments Throws {A} error.
Arguments Box N : clear implicits.
Arguments Detection N : clear implicits.
Arguments Selected N : clear implicits.
Arguments Candidates N : clear implicits.

(** The default arguments of [parseYOLOv8Output]. *)
Definition default_confidenceThreshold : xq := frac 1 4.
Definition default_iouThreshold : xq := frac 9 20.
Definition default_modelInputSize : xq := frac 640 1.

(** ** Sorting: the stable insertion sort

    [Array_sort] is an insertion sort by the relation "[compareFn] puts [y]
    strictly before [x]".  The facts below are about that sort over any such
    relation [worse]. *)

Section Sorting.
Context {A : Type}.
Variable worse : A -> A -> bool.

Fixpoint insert_by (x : A) (l : list A) : list A :=
  match l with
  | [] => [x]
  | y :: l' => if worse x y then y :: insert_by x l' else x :: y :: l'
  end.

Definition isort_by (l : list A) : list A := foldr insert_by [] l.

Lemma insert_by_perm x l : insert_by x l ≡ₚ x :: l.
Proof.
  induction l as [|y l IH]; simpl; [done|].
  destruct (worse x y); [|done].
  rewrite IH. apply Permutation_swap.
Qed.

Lemma isort_by_perm l : isort_by l ≡ₚ l.
Proof.
  induction l as [|x l IH]; simpl; [done|].
  rewrite insert_by_perm. by rewrite IH.
Qed.

Lemma insert_by_head x l :
  Forall (fun y => worse x y = false) l -> insert_by x l = x :: l.
Proof.
  destruct l as [|y l]; simpl; [done|].
  intros Hall. apply Forall_cons in Hall as [-> _]. done.
Qed.

(** The order the sort establishes: no element is strictly worse than one
    behind it. *)
Definition descending (l : list A) : Prop :=
  StronglySorted (fun x y => worse x y = false) l.

Lemma isort_by_descending_id l : descending l -> isort_by l = l.
Proof.
  induction 1 as [|x l Hl IH Hx]; simpl; [done|].
  rewrite IH. by apply insert_by_head.
Qed.

Lemma descending_sublist l k : k `sublist_of` l -> descending l -> descending k.
Proof.
  intros Hsub Hl. revert k Hsub.
  induction Hl as [|x l Hl IH Hx]; intros k Hsub.
  - apply sublist_nil_r in Hsub as ->. constructor.
  - apply sublist_cons_r in Hsub as [Hsub|(k' & -> & Hsub)]; [by apply IH|].
    constructor; [by apply IH|].
    eapply Forall_forall. intros y Hy. eapply Forall_forall in Hx; [exact Hx|].
    by eapply elem_of_sublist.
Qed.

(** On a list of comparable elements the relation is a strict weak order. *)
Variable comparable : A -> Prop.
Hypothesis worse_asym :
  forall x y, comparable x -> comparable y -> worse x y = true -> worse y x = false.
Hypothesis not_worse_trans :
  forall x y z, comparable x -> comparable y -> comparable z ->
    worse x y = false -> worse y z = false -> worse x z = false.

Lemma insert_by_descending x l :
  comparable x -> Forall comparable l ->
  descending l -> descending (insert_by x l).
Proof.
  intros Hx Hcl Hl. induction Hl as [|y l Hl IH Hy]; simpl.
  - repeat constructor.
  - apply Forall_cons in Hcl as [Hcy Hcl].
    destruct (worse x y) eqn:Hxy.
    + constructor; [by apply IH|].
      rewrite insert_by_perm. constructor; [by apply (worse_asym x y)|done].
    + constructor; [by constructor|].
      constructor; [done|].
      eapply Forall_forall. intros z Hz.
      pose proof (proj1 (Forall_forall _ _) Hy z Hz) as Hyz.
      pose proof (proj1 (Forall_forall _ _) Hcl z Hz) as Hcz.
      by apply (not_worse_trans x y z).
Qed.

Lemma isort_by_descending l : Forall comparable l -> descending (isort_by l).
Proof.
  induction l as [|x l IH]; simpl; intros Hcl; [constructor|].
  apply Forall_cons in Hcl as [Hx Hcl].
  apply insert_by_descending; [done| |by apply IH].
  by rewrite isort_by_perm.
Qed.

(** Filtering commutes with the sort: the sort is stable. *)
Lemma filter_insert_by (P : A -> Prop) `{!forall x, Decision (P x)} x l :
  comparable x -> Forall comparable l -> descending l ->
  filter P (insert_by x l) =
    if decide (P x) then insert_by x (filter P l) else filter P l.
Proof.
  intros Hx Hcl Hl. induction Hl as [|y l Hl IH Hy]; simpl.
  - rewrite filter_cons, filter_nil. by destruct (decide (P x)).
  - apply Forall_cons in Hcl as [Hcy Hcl].
    destruct (worse x y) eqn:Hxy.
    + rewrite !filter_cons, IH by done.
      destruct (decide (P y)), (decide (P x)); simpl; rewrite ?Hxy; done.
    + rewrite !filter_cons.
      destruct (decide (P x)); simpl; [|done].
      destruct (decide (P y)); simpl; [by rewrite Hxy|].
      symmetry. apply insert_by_head.
      eapply Forall_forall. intros z Hz.
      apply list_elem_of_filter in Hz as [_ Hz].
      pose proof (proj1 (Forall_forall _ _) Hy z Hz) as Hyz.
      pose proof (proj1 (Forall_forall _ _) Hcl z Hz) as Hcz.
      by apply (not_worse_trans x y z).
Qed.

Lemma filter_isort_by (P : A -> Prop) `{!forall x, Decision (P x)} l :
  Forall comparable l -> filter P (isort_by l) = isort_by (filter P l).
Proof.
  induction l as [|x l IH]; simpl; intros Hcl; [done|].
  apply Forall_cons in Hcl as [Hx Hcl].
  rewrite filter_insert_by, filter_cons; try done.
  - rewrite IH by done. by destruct (decide (P x)).
  - by rewrite isort_by_perm.
  - by apply isort_by_descending.
Qed.
End Sorting.

Lemma insert_by_fmap {A B : Type} (f : A -> B) (worseA : A -> A -> bool)
    (worseB : B -> B -> bool) x l :
  (forall y, y ∈ l -> worseA x y = worseB (f x) (f y)) ->
  f <$> insert_by worseA x l = insert_by worseB (f x) (f <$> l).
Proof.
  induction l as [|y l IH]; simpl; intros Hw; [done|].
  rewrite <- (Hw y) by apply list_elem_of_here.
  destruct (worseA x y); simpl; [|done].
  f_equal. apply IH. intros z Hz. apply Hw. by apply list_elem_of_further.
Qed.

(** Sorting the images by their order is sorting by the order of the images. *)
Lemma isort_by_fmap {A B : Type} (f : A -> B) (worseA : A -> A -> bool)
    (worseB : B -> B -> bool) l :
  (forall x y, x ∈ l -> y ∈ l -> worseA x y = worseB (f x) (f y)) ->
  f <$> isort_by worseA l = isort_by worseB (f <$> l).
Proof.
  induction l as [|x l IH]; simpl; intros Hw; [done|].
  rewrite (insert_by_fmap f worseA worseB).
  - f_equal. apply IH. intros y z Hy Hz.
    apply Hw; by apply list_elem_of_further.
  - intros y Hy. rewrite isort_by_perm in Hy.
    apply Hw; [apply list_elem_of_here|by apply list_elem_of_further].
Qed.

Lemma filter_none {A : Type} (P : A -> Prop) `{!forall x, Decision (P x)} l :
  Forall (fun x => ¬ P x) l -> filter P l = [].
Proof.
  induction 1 as [|x l Hx _ IH]; [done|].
  rewrite filter_cons. by destruct (decide (P x)).
Qed.

(** In a descending list, the elements above a cut form a prefix. *)
Lemma descending_filter_prefix {A : Type} (worse : A -> A -> bool)
    (comparable : A -> Prop) (P : A -> Prop) `{!forall x, Decision (P x)} l :
  (forall x y, comparable x -> ¬ P x -> worse x y = false -> ¬ P y) ->
  Forall comparable l ->
  descending worse l -> filter P l `prefix_of` l.
Proof.
  intros Hcut Hcl Hl. induction Hl as [|x l Hl IH Hx]; [done|].
  apply Forall_cons in Hcl as [Hcx Hcl].
  rewrite filter_cons. destruct (decide (P x)) as [HP|HP].
  - apply prefix_cons. by apply IH.
  - rewrite filter_none; [apply prefix_nil|].
    eapply Forall_impl; [exact Hx|]. intros y Hy. by eapply Hcut.
Qed.

(** [Array_sort] is the insertion sort by "[compareFn] puts [y] first". *)
Lemma Array_sort_isort_by {N : Type} `{JSNumber N} {A : Type}
    (compareFn : A -> A -> N) (l : list A) :
  Array_sort compareFn l = isort_by (fun x y => (compareFn x y >? zero)%js) l.
Proof.
  unfold Array_sort, isort_by. induction l as [|x l IH]; simpl; [done|].
  rewrite IH. generalize (foldr (insert_by (fun x y => (compareFn x y >? zero)%js)) [] l).
  intros s. induction s as [|y s IHs]; simpl; [done|]. by rewrite IHs.
Qed.

Lemma fmap_prefix {A B : Type} (f : A -> B) (l1 l2 : list A) :
  l1 `prefix_of` l2 -> f <$> l1 `prefix_of` f <$> l2.
Proof. intros [l ->]. rewrite fmap_app. by eexists. Qed.

(** ** Greedy selection

    What the two loops of [nonMaxSuppression] compute on the sorted indices:
    an element is taken unless an element taken before it hits it. *)

Section Greedy.
Context {A : Type}.
Variable hit : A -> A -> bool.   (* [hit k s]: the chosen [s] suppresses [k] *)

Fixpoint pick (l chosen : list A) : list A :=
  match l with
  | [] => []
  | k :: l' =>
      if existsb (hit k) chosen then pick l' chosen
      else k :: pick l' (chosen ++ [k])
  end.

Lemma pick_app l1 l2 chosen :
  pick (l1 ++ l2) chosen = pick l1 chosen ++ pick l2 (chosen ++ pick l1 chosen).
Proof.
  revert chosen. induction l1 as [|k l1 IH]; intros chosen; simpl.
  - by rewrite app_nil_r.
  - destruct (existsb (hit k) chosen); [apply IH|].
    simpl. rewrite IH. by rewrite <- app_assoc.
Qed.

Lemma pick_prefix l1 l2 chosen :
  l1 `prefix_of` l2 -> pick l1 chosen `prefix_of` pick l2 chosen.
Proof. intros [l ->]. rewrite pick_app. by eexists. Qed.

Lemma pick_sublist l chosen : pick l chosen `sublist_of` l.
Proof.
  revert chosen. induction l as [|k l IH]; intros chosen; simpl; [done|].
  destruct (existsb (hit k) chosen).
  - by apply sublist_cons.
  - by apply sublist_skip.
Qed.

(** Selecting again among the selected elements keeps them all. *)
Lemma pick_idempotent l chosen : pick (pick l chosen) chosen = pick l chosen.
Proof.
  revert chosen. induction l as [|k l IH]; intros chosen; simpl; [done|].
  destruct (existsb (hit k) chosen) eqn:Hk; [apply IH|].
  simpl. rewrite Hk. by rewrite IH.
Qed.
End Greedy.

Lemma existsb_fmap {A B : Type} (f : A -> B) (p : B -> bool) (q : A -> bool) l :
  (forall x, p (f x) = q x) -> existsb p (f <$> l) = existsb q l.
Proof. intros Hpq. induction l as [|x l IH]; csimpl; [done|]. by rewrite IH, Hpq. Qed.

Lemma pick_fmap {A B : Type} (f : A -> B) (hitA : A -> A -> bool)
    (hitB : B -> B -> bool) l chosen :
  (forall k s, hitA k s = hitB (f k) (f s)) ->
  f <$> pick hitA l chosen = pick hitB (f <$> l) (f <$> chosen).
Proof.
  intros Hhit. revert chosen. induction l as [|k l IH]; intros chosen; csimpl; [done|].
  rewrite (existsb_fmap f (hitB (f k)) (hitA k)) by done.
  destruct (existsb (hitA k) chosen); [apply IH|].
  csimpl. rewrite IH. by rewrite fmap_app.
Qed.

(** ** The loops of nonMaxSuppression *)

Section Suppression.
Context {N : Type} `{JSNumber N}.
Local Open Scope js_scope.

Variables (boxes : list (Box N)) (confidences : list N) (iouThreshold : N).

(** The selected index [s] suppresses the index [k]. *)
Definition hitAt (k s : nat) : bool :=
  calculateIOU (boxAt boxes s) (boxAt boxes k) >? iouThreshold.

Definition selectedAt (idx : nat) : Selected N :=
  {| selectedBox := boxAt boxes idx;
     selectedConfidence := numberAt confidences idx;
     originalIndex := idx |}.

Lemma suppressLoop_length idx later suppressed :
  length (suppressLoop boxes iouThreshold idx later suppressed) = length suppressed.
Proof.
  unfold suppressLoop. revert suppressed.
  induction later as [|n later IH]; intros suppressed; simpl; [done|].
  rewrite IH. destruct (truthy (suppressed !! n)); [done|].
  destruct (lt _ _); [|done]. by rewrite length_insert.
Qed.

(** After the inner loop an index is suppressed when it was before, or
    when it is one of the later indices and [idx] hits it. *)
Lemma suppressLoop_spec idx later suppressed k :
  (k < length suppressed)%nat ->
  truthy (suppressLoop boxes iouThreshold idx later suppressed !! k) = true <->
  truthy (suppressed !! k) = true \/ (k ∈ later /\ hitAt k idx = true).
Proof.
  unfold suppressLoop. revert suppressed.
  induction later as [|n later IH]; intros suppressed Hk; simpl.
  - split; [by left|]. intros [?|[Hin _]]; [done|]. by apply elem_of_nil in Hin.
  - rewrite IH; last first.
    { destruct (truthy (suppressed !! n)); [done|].
      destruct (lt _ _); [|done]. by rewrite length_insert. }
    rewrite elem_of_cons.
    destruct (truthy (suppressed !! n)) eqn:Hn.
    + split; [tauto|]. intros [?|[[->|?] ?]]; tauto.
    + fold (hitAt n idx). destruct (hitAt n idx) eqn:Hhit.
      * destruct (decide (k = n)) as [->|Hne].
        -- rewrite list_lookup_insert_eq by done. simpl. tauto.
        -- rewrite list_lookup_insert_ne by done. tauto.
      * split; [tauto|]. intros [?|[[->|?] ?]]; [tauto|congruence|tauto].
Qed.

(** The outer loop selects greedily: an index is selected unless an index
    selected before hits it. *)
Lemma selectLoop_pick indices selected suppressed :
  (forall k, k ∈ indices -> (k < length suppressed)%nat) ->
  (forall k, k ∈ indices ->
     truthy (suppressed !! k) = existsb (hitAt k) (originalIndex <$> selected)) ->
  selectLoop boxes confidences iouThreshold indices selected suppressed =
    selected ++ (selectedAt <$> pick hitAt indices (originalIndex <$> selected)).
Proof.
  revert selected suppressed.
  induction indices as [|idx later IH]; intros selected suppressed Hrange Hsup; simpl.
  - by rewrite app_nil_r.
  - rewrite <- (Hsup idx) by apply list_elem_of_here.
    destruct (truthy (suppressed !! idx)) eqn:Hidx.
    + apply IH; intros k Hk; [apply Hrange|apply Hsup]; by apply list_elem_of_further.
    + rewrite IH.
      * rewrite fmap_app. csimpl. by rewrite <- app_assoc.
      * intros k Hk. rewrite suppressLoop_length.
        apply Hrange. by apply list_elem_of_further.
      * intros k Hk. rewrite fmap_app, existsb_app. csimpl.
        rewrite orb_false_r.
        assert (k < length suppressed)%nat as Hlt
          by (apply Hrange; by apply list_elem_of_further).
        pose proof (suppressLoop_spec idx later suppressed k Hlt) as Hspec.
        rewrite <- (Hsup k) by (by apply list_elem_of_further).
        apply eq_true_iff_eq. rewrite Hspec, orb_true_iff.
        split; [intros [?|[_ ?]]; tauto|]. intros [?|?]; tauto.
Qed.

(** The sorted indices are the indices of [confidences], reordered. *)
Lemma sortedIndices_perm : sortedIndices confidences ≡ₚ seq 0 (length confidences).
Proof.
  unfold sortedIndices. rewrite Array_sort_isort_by, isort_by_perm.
  assert (forall (l : list N) n,
            (imap (fun idx conf => (conf, (n + idx)%nat)) l).*2 = seq n (length l)) as Himap.
  { induction l as [|c l IHl]; intros n; csimpl; [done|].
    rewrite Nat.add_0_r. f_equal.
    rewrite <- IHl. f_equal. apply imap_ext. intros i x _. simpl. f_equal. lia. }
  by rewrite <- (Himap confidences 0%nat).
Qed.

Lemma indices_in_range k :
  k ∈ sortedIndices confidences -> (k < length confidences)%nat.
Proof.
  rewrite sortedIndices_perm, elem_of_seq. lia.
Qed.

Lemma nonMaxSuppression_pick :
  length boxes = length confidences ->
  nonMaxSuppression boxes confidences iouThreshold =
    selectedAt <$> pick hitAt (sortedIndices confidences) [].
Proof.
  intros Hlen. unfold nonMaxSuppression.
  destruct (length boxes =? 0)%nat eqn:Hz.
  - apply Nat.eqb_eq in Hz. rewrite Hz in Hlen.
    symmetry in Hlen. apply length_zero_iff_nil in Hlen. by rewrite Hlen.
  - rewrite selectLoop_pick; [done| |].
    + intros k Hk. rewrite length_replicate, Hlen. by apply indices_in_range.
    + intros k Hk. rewrite lookup_replicate_2; [done|].
      rewrite Hlen. by apply indices_in_range.
Qed.
End Suppression.

(** ** Exact numbers: order facts *)

Ltac qc_compare :=
  unfold Qccompare;
  repeat match goal with
    | |- context [Qcompare ?a ?b] => destruct (Qcompare_spec a b)
    | H : context [Qcompare ?a ?b] |- _ => destruct (Qcompare_spec a b)
    end.

Ltac qc_arith :=
  unfold Qcminus, Qcdiv, Qcinv, Qcplus, Qcmult, Qcopp, Q2Qc in *; cbn [this] in *;
  repeat match goal with
    | H : context [Qred ?a] |- _ => setoid_rewrite (Qred_correct a) in H
    | |- context [Qred ?a] => setoid_rewrite (Qred_correct a)
    end.

(** Linear arithmetic after naming a quotient by a constant. *)
Ltac lra_div :=
  repeat match goal with
    | H : context [(?a * / ?c)%Q] |- _ =>
        let d := fresh "d" in
        let Hd := fresh "Hd" in
        set (d := (a * / c)%Q) in *;
        assert (d * c == a)%Q as Hd by (unfold d; field);
        clearbody d
    end;
  lra.

Lemma xq_gt_sub (a b : xq) : xq_lt (Fin 0) (xq_sub b a) = xq_lt a b.
Proof.
  destruct a as [p| | |], b as [q| | |]; try reflexivity.
  cbn [xq_sub xq_neg xq_add xq_lt].
  qc_compare; qc_arith; try reflexivity; exfalso; lra.
Qed.

Lemma xq_lt_asym (a b : xq) : xq_lt a b = true -> xq_lt b a = false.
Proof.
  destruct a as [p| | |], b as [q| | |]; try done.
  cbn [xq_lt]. qc_compare; try done; exfalso; lra.
Qed.

Lemma xq_not_lt_trans (a b c : xq) :
  b <> XNaN -> xq_lt a b = false -> xq_lt b c = false -> xq_lt a c = false.
Proof.
  destruct a as [p| | |], b as [q| | |], c as [r| | |]; try done.
  cbn [xq_lt]. qc_compare; try done; exfalso; lra.
Qed.

(** [a <= b] of JavaScript: false when either is NaN. *)
Definition xq_le (a b : xq) : bool :=
  match a, b with
  | XNaN, _ | _, XNaN => false
  | _, _ => negb (xq_lt b a)
  end.

Lemma xq_le_lt_trans (a b c : xq) :
  xq_le a b = true -> xq_lt b c = true -> xq_lt a c = true.
Proof.
  destruct a as [p| | |], b as [q| | |], c as [r| | |]; try done.
  cbn [xq_le xq_lt negb]. qc_compare; try done; exfalso; lra.
Qed.

Lemma xq_lt_not_NaN_r (a b : xq) : xq_lt a b = true -> b <> XNaN.
Proof. by destruct a, b. Qed.

(** ** nonMaxSuppression on the candidates themselves

    The result of [nonMaxSuppression], with the indices forgotten: the
    candidates (box, confidence) sorted by descending confidence, then
    selected greedily. *)

Section SuppressionValues.
Variable iouThreshold : xq.

Definition worseV (x y : Box xq * xq) : bool := xq_lt x.2 y.2.
Definition hitV (k s : Box xq * xq) : bool :=
  xq_lt iouThreshold (calculateIOU s.1 k.1).
Definition valueOf (s : Selected xq) : Box xq * xq :=
  (selectedBox s, selectedConfidence s).

Lemma nonMaxSuppression_values (boxes : list (Box xq)) (confidences : list xq) :
  length boxes = length confidences ->
  valueOf <$> nonMaxSuppression boxes confidences iouThreshold =
    pick hitV (isort_by worseV (zip boxes confidences)) [].
Proof.
  intros Hlen. rewrite nonMaxSuppression_pick by done.
  rewrite <- list_fmap_compose.
  rewrite (pick_fmap _ _ hitV) by done. csimpl. f_equal.
  unfold sortedIndices. rewrite Array_sort_isort_by, <- list_fmap_compose.
  rewrite (isort_by_fmap _ _ worseV).
  - f_equal. apply list_eq. intros i.
    rewrite list_lookup_fmap, list_lookup_imap, lookup_zip_with.
    destruct (confidences !! i) as [c|] eqn:Hc; simpl.
    + destruct (boxes !! i) as [b|] eqn:Hb; simpl.
      * unfold valueOf, selectedAt, boxAt, numberAt. simpl. by rewrite Hb, Hc.
      * apply lookup_ge_None in Hb. apply lookup_lt_Some in Hc. lia.
    + by destruct (boxes !! i).
  - intros [c1 i1] [c2 i2] H1 H2.
    apply elem_of_lookup_imap in H1 as (? & ? & [= -> ->] & H1).
    apply elem_of_lookup_imap in H2 as (? & ? & [= -> ->] & H2).
    unfold worseV, valueOf, selectedAt, numberAt. simpl.
    rewrite H1, H2. simpl. apply xq_gt_sub.
Qed.

Lemma nonMaxSuppression_length boxes confidences :
  length boxes = length confidences ->
  length (nonMaxSuppression boxes confidences iouThreshold) =
    length (pick hitV (isort_by worseV (zip boxes confidences)) []).
Proof.
  intros Hlen. rewrite <- nonMaxSuppression_values by done.
  by rewrite length_fmap.
Qed.

Definition hasConfidence (x : Box xq * xq) : Prop := x.2 <> XNaN.

Lemma worseV_asym x y :
  hasConfidence x -> hasConfidence y -> worseV x y = true -> worseV y x = false.
Proof. intros _ _. apply xq_lt_asym. Qed.

Lemma worseV_trans x y z :
  hasConfidence x -> hasConfidence y -> hasConfidence z ->
  worseV x y = false -> worseV y z = false -> worseV x z = false.
Proof. intros _ Hy _. by apply xq_not_lt_trans. Qed.
End SuppressionValues.

(** ** The decoding loop of parseYOLOv8Output *)

Lemma zip_fmap {A B C : Type} (f : A -> B) (g : A -> C) (l : list A) :
  zip (f <$> l) (g <$> l) = (fun x => (f x, g x)) <$> l.
Proof. induction l as [|x l IH]; csimpl; [done|]. by rewrite IH. Qed.

Section Decoding.
Variables (data : list xq) (originalWidth originalHeight : xq).
Variables (confidenceThreshold modelInputSize : xq).

(** The number of iterations: one per started record of 84 values. *)
Definition recordCount : nat := ((length data + 83) / 84)%nat.

Lemma recordCount_lt (i : nat) :
  (i < recordCount)%nat <-> (i * 84 < length data)%nat.
Proof.
  unfold recordCount.
  pose proof (Nat.div_mod (length data + 83) 84 ltac:(done)) as Hdiv.
  pose proof (Nat.mod_upper_bound (length data + 83) 84 ltac:(done)) as Hmod.
  lia.
Qed.

(** The loop test [i < numPredictions], with [numPredictions = length / 84]
    a fraction. *)
Lemma loop_test (i : nat) :
  lt (ofZ (Z.of_nat i)) (numPredictions data) = bool_decide (i < recordCount)%nat.
Proof.
  unfold numPredictions, numValuesPerPrediction. cbn [ofZ div lt xq_number xq_div].
  assert ((Q2Qc (inject_Z (Z.of_nat 84)) ?= 0)%Qc = Gt) as -> by reflexivity.
  cbn [xq_lt].
  pose proof (recordCount_lt i) as Hcount.
  assert (inject_Z (Z.of_nat (i * 84)) == inject_Z (Z.of_nat i) * (84 # 1))%Q as Hmul.
  { rewrite Nat2Z.inj_mul, inject_Z_mult. reflexivity. }
  case_bool_decide as Hi; rewrite Hcount in Hi.
  - apply Nat2Z.inj_lt in Hi. rewrite Zlt_Qlt, Hmul in Hi.
    qc_compare; try done; exfalso; qc_arith;
      change (inject_Z (Z.of_nat 84)) with (84 # 1)%Q in *; lra_div.
  - apply Nat.nlt_ge, Nat2Z.inj_le in Hi. rewrite Zle_Qle, Hmul in Hi.
    qc_compare; try done; exfalso; qc_arith;
      change (inject_Z (Z.of_nat 84)) with (84 # 1)%Q in *; lra_div.
Qed.

Abbreviation body := (loopBody data originalWidth originalHeight confidenceThreshold modelInputSize).

(** With enough fuel the loop runs the body on [i], [i + 1], ... up to the
    record count. *)
Lemma forLoop_fuel (fuel i : nat) (acc : Candidates xq) :
  (recordCount <= i + fuel)%nat ->
  forLoop data originalWidth originalHeight confidenceThreshold modelInputSize fuel i acc =
    fold_left (fun acc i => body i acc) (seq i (recordCount - i)) acc.
Proof.
  revert i acc. induction fuel as [|fuel IH]; intros i acc Hfuel; cbn [forLoop].
  - by replace (recordCount - i)%nat with 0%nat by lia.
  - rewrite loop_test. case_bool_decide as Hi.
    + rewrite IH by lia.
      replace (recordCount - i)%nat with (S (recordCount - S i)) by lia. done.
    + by replace (recordCount - i)%nat with 0%nat by lia.
Qed.

Lemma recordCount_le : (recordCount <= length data)%nat.
Proof.
  unfold recordCount.
  pose proof (Nat.div_mod (length data + 83) 84 ltac:(done)) as Hdiv.
  pose proof (Nat.mod_upper_bound (length data + 83) 84 ltac:(done)) as Hmod.
  lia.
Qed.

(** The records the loop keeps, by their number. *)
Definition keptRecords : list nat :=
  filter (fun i => retained data confidenceThreshold i) (seq 0 recordCount).

Lemma fold_loopBody (l : list nat) (acc : Candidates xq) :
  let kept := filter (fun i => retained data confidenceThreshold i) l in
  let acc' := fold_left (fun acc i => body i acc) l acc in
  boxes acc' = boxes acc ++ (mappedBox data originalWidth originalHeight modelInputSize <$> kept) /\
  confidences acc' = confidences acc ++ (totalConfidenceOf data <$> kept) /\
  classIds acc' = classIds acc ++ (classIdOf data <$> kept).
Proof.
  revert acc. induction l as [|i l IH]; intros acc; simpl.
  - by rewrite !app_nil_r.
  - rewrite filter_cons. destruct (IH (body i acc)) as (Hb & Hc & Hi).
    rewrite Hb, Hc, Hi. unfold loopBody.
    destruct (decide _) as [Hr|Hr].
    + apply Is_true_true in Hr. rewrite Hr. csimpl. by rewrite <- !app_assoc.
    + apply Is_true_false in Hr. by rewrite Hr.
Qed.

Lemma collectCandidates_spec :
  let cands := collectCandidates data originalWidth originalHeight
                                 confidenceThreshold modelInputSize in
  boxes cands = mappedBox data originalWidth originalHeight modelInputSize <$> keptRecords /\
  confidences cands = totalConfidenceOf data <$> keptRecords /\
  classIds cands = classIdOf data <$> keptRecords.
Proof.
  unfold collectCandidates. rewrite forLoop_fuel by (pose proof recordCount_le; lia).
  rewrite Nat.sub_0_r. apply (fold_loopBody (seq 0 recordCount) noCandidates).
Qed.

(** The three arrays stay parallel. *)
Lemma candidates_parallel :
  let cands := collectCandidates data originalWidth originalHeight
                                 confidenceThreshold modelInputSize in
  length (boxes cands) = length (confidences cands) /\
  length (classIds cands) = length (confidences cands).
Proof.
  destruct collectCandidates_spec as (Hb & Hc & Hi). simpl.
  rewrite Hb, Hc, Hi. by rewrite !length_fmap.
Qed.
End Decoding.

(** ** parseYOLOv8Output through its kept records *)

Section Parsing.
Variables (data : list xq) (originalWidth originalHeight : xq).
Variables (iouThreshold modelInputSize : xq).

(** The candidate of record [i]: its mapped box and its confidence. *)
Definition candidateOf (i : nat) : Box xq * xq :=
  (mappedBox data originalWidth originalHeight modelInputSize i,
   totalConfidenceOf data i).

(** Record [i] ranks strictly below record [j]. *)
Definition worseRecord (i j : nat) : bool :=
  xq_lt (totalConfidenceOf data i) (totalConfidenceOf data j).

Definition scored (i : nat) : Prop := totalConfidenceOf data i <> XNaN.

Lemma keptRecords_scored confidenceThreshold :
  Forall scored (keptRecords data confidenceThreshold).
Proof.
  apply Forall_forall. intros i Hi.
  apply list_elem_of_filter in Hi as [Hi _].
  unfold retained in Hi. apply andb_prop_elim in Hi as [Hi _].
  apply Is_true_true in Hi. by apply xq_lt_not_NaN_r in Hi.
Qed.

Lemma parse_length confidenceThreshold :
  length (parseYOLOv8Output data originalWidth originalHeight
                            confidenceThreshold iouThreshold modelInputSize) =
  length (pick (hitV iouThreshold)
               (candidateOf <$> isort_by worseRecord (keptRecords data confidenceThreshold))
               []).
Proof.
  unfold parseYOLOv8Output.
  destruct (collectCandidates_spec data originalWidth originalHeight
              confidenceThreshold modelInputSize) as (Hb & Hc & _).
  destruct (candidates_parallel data originalWidth originalHeight
              confidenceThreshold modelInputSize) as (Hlen & _).
  cbv zeta in *. rewrite length_fmap, nonMaxSuppression_length by done.
  rewrite Hb, Hc, zip_fmap. fold candidateOf.
  by rewrite (isort_by_fmap candidateOf worseRecord worseV).
Qed.

Lemma kept_raise (t1 t2 : xq) :
  xq_le t1 t2 = true ->
  keptRecords data t2 =
    filter (fun i => xq_lt t2 (totalConfidenceOf data i)) (keptRecords data t1).
Proof.
  intros Hle. unfold keptRecords. rewrite list_filter_filter.
  apply list_filter_iff. intros i. unfold retained.
  rewrite !andb_True. split.
  - intros [Ht Hp]. repeat split; try done.
    apply Is_true_true. apply Is_true_true in Ht. by eapply xq_le_lt_trans.
  - tauto.
Qed.
End Parsing.

(** Every detection comes from a kept record: its box is the mapped box of
    the record, its confidence and class those of the record. *)
Lemma parse_elem (data : list xq) (originalWidth originalHeight : xq)
    (confidenceThreshold iouThreshold modelInputSize : xq) (d : Detection xq) :
  d ∈ parseYOLOv8Output data originalWidth originalHeight
                        confidenceThreshold iouThreshold modelInputSize ->
  exists i, i ∈ keptRecords data confidenceThreshold /\
    box d = mappedBox data originalWidth originalHeight modelInputSize i /\
    confidence d = totalConfidenceOf data i /\
    classId d = classIdOf data i.
Proof.
  unfold parseYOLOv8Output.
  destruct (collectCandidates_spec data originalWidth originalHeight
              confidenceThreshold modelInputSize) as (Hb & Hc & Hi).
  destruct (candidates_parallel data originalWidth originalHeight
              confidenceThreshold modelInputSize) as (Hlen & _).
  cbv zeta in *. rewrite nonMaxSuppression_pick by done.
  rewrite <- list_fmap_compose. intros Hd.
  apply list_elem_of_fmap in Hd as (idx & -> & Hidx).
  eapply elem_of_sublist in Hidx; [|apply pick_sublist].
  apply indices_in_range in Hidx. rewrite Hc, length_fmap in Hidx.
  apply lookup_lt_is_Some in Hidx as [i Hi'].
  exists i. split; [by eapply list_elem_of_lookup_2|].
  cbn [compose box confidence classId selectedAt selectedBox selectedConfidence originalIndex].
  unfold boxAt, numberAt. rewrite Hb, Hc, Hi, !list_lookup_fmap, Hi'. done.
Qed.

Lemma isPerson_zero (k : Z) : isPerson k = true -> k = 0.
Proof.
  unfold isPerson, at_index. intros Hk. apply bool_decide_eq_true in Hk.
  destruct (k <? 0) eqn:Hneg; [done|]. apply Z.ltb_ge in Hneg.
  destruct (Z.to_nat k) as [|n] eqn:Hn; [lia|]. exfalso.
  change (CLASS_LABELS !! S n) with (tail CLASS_LABELS !! n) in Hk.
  apply list_elem_of_lookup_2 in Hk. revert Hk.
  apply (bool_decide_eq_false_1 ("person"%string ∈ tail CLASS_LABELS)).
  by vm_compute.
Qed.

(** The loop keeps what its body keeps, however often it runs. *)
Lemma forLoop_preserves {N : Type} `{JSNumber N} (data : list N)
    (originalWidth originalHeight confidenceThreshold modelInputSize : N)
    (P : Candidates N -> Prop) :
  (forall i acc, P acc ->
     P (loopBody data originalWidth originalHeight confidenceThreshold modelInputSize i acc)) ->
  forall fuel i acc, P acc ->
    P (forLoop data originalWidth originalHeight confidenceThreshold modelInputSize fuel i acc).
Proof.
  intros Hbody. induction fuel as [|fuel IH]; intros i acc Hacc; cbn [forLoop]; [done|].
  destruct (lt _ _); [|done]. by apply IH, Hbody.
Qed.

(** In every number system the three arrays are parallel and hold class 0
    only. *)
Lemma candidates_person {N : Type} `{JSNumber N} (data : list N)
    (originalWidth originalHeight confidenceThreshold modelInputSize : N) :
  let cands := collectCandidates data originalWidth originalHeight
                                 confidenceThreshold modelInputSize in
  length (boxes cands) = length (confidences cands) /\
  length (classIds cands) = length (confidences cands) /\
  Forall (fun k => k = 0) (classIds cands).
Proof.
  unfold collectCandidates. apply forLoop_preserves; [|by repeat split].
  intros i acc (Hb & Hc & Hzero). unfold loopBody.
  destruct (retained data confidenceThreshold i) eqn:Hkept; [|done].
  cbn [boxes confidences classIds]. rewrite !length_app, Hb, Hc.
  repeat split; try done.
  apply Forall_app. split; [done|]. constructor; [|done].
  unfold retained in Hkept. apply andb_true_iff in Hkept as [_ Hperson].
  by apply isPerson_zero.
Qed.

(** ** Sample tensors *)

(** One prediction record of 84 values: the five leading fields, the score of
    class 0 ('person') and 78 scores of zero. *)
Definition personRecord (x y w h obj person : xq) : list xq :=
  [x; y; w; h; obj; person] ++ replicate 78 (frac 0 1).

(** The same record in binary64. *)
Definition personRecord64 (x y w h obj person : float) : list float :=
  [x; y; w; h; obj; person] ++ replicate 78 0%float.

(** The defaults in binary64: 0.25, the double nearest to 0.45, and 640. *)
Definition default_confidenceThreshold64 : float := 0.25%float.
Definition default_iouThreshold64 : float := 0x1.ccccccccccccdp-2%float.
Definition default_modelInputSize64 : float := 640%float.

(** Evaluates the embedding and compares exact numbers by their value. *)
Ltac evaluate :=
  vm_compute;
  repeat match goal with
    | |- _ /\ _ => split
    | |- @eq Qc _ _ => apply Qc_is_canon; reflexivity
    | |- @eq xq (Fin _) (Fin _) => apply (f_equal Fin)
    | |- @eq float _ _ => reflexivity
    | |- @eq bool _ _ => reflexivity
    | |- @eq Z _ _ => reflexivity
    | |- @eq nat _ _ => reflexivity
    | |- @eq xq _ _ => reflexivity
    | |- @eq _ _ _ => progress f_equal
    end.

Lemma xq_mul_NaN_r (a : xq) : xq_mul a XNaN = XNaN.
Proof. by destruct a. Qed.

Lemma xq_lt_NaN_r (a : xq) : xq_lt a XNaN = false.
Proof. by destruct a. Qed.

(** A record without class scores is never retained: its confidence is
    [obj_conf * undefined]. *)
Lemma retained_no_scores (data : list xq) (confidenceThreshold : xq) (i : nat) :
  class_confs data i = [] -> retained data confidenceThreshold i = false.
Proof.
  intros Hcs. unfold retained, totalConfidenceOf, classIdOf. rewrite Hcs.
  cbn [indexOf indexOf_from at_index Z.ltb Z.compare toNumber default NaN xq_number mul lt].
  by rewrite xq_mul_NaN_r, xq_lt_NaN_r.
Qed.

(** ** calculateIOU on finite boxes *)

Definition qmax (a b : Qc) : Qc := match (a ?= b)%Qc with Lt => b | _ => a end.
Definition qmin (a b : Qc) : Qc := match (b ?= a)%Qc with Lt => b | _ => a end.

Definition finiteBox (x1 y1 x2 y2 : Qc) : Box xq := (Fin x1, Fin y1, Fin x2, Fin y2).

(** The formula of the specification, on the coordinates:
    [max(0, min(x2) - max(x1)) * max(0, min(y2) - max(y1))] and the areas. *)
Definition areaOf (x1 y1 x2 y2 : Qc) : Qc := ((x2 - x1) * (y2 - y1))%Qc.
Definition intersectionOf (x1 y1 x2 y2 X1 Y1 X2 Y2 : Qc) : Qc :=
  (qmax 0 (qmin x2 X2 - qmax x1 X1) * qmax 0 (qmin y2 Y2 - qmax y1 Y1))%Qc.

Lemma Math_max_finite (a b : Qc) : Math_max [Fin a; Fin b] = Fin (qmax a b).
Proof.
  unfold Math_max, qmax. cbn. unfold xq_max2. cbn.
  by destruct (a ?= b)%Qc.
Qed.

Lemma Math_min_finite (a b : Qc) : Math_min [Fin a; Fin b] = Fin (qmin a b).
Proof.
  unfold Math_min, qmin. cbn. unfold xq_min2. cbn.
  by destruct (b ?= a)%Qc.
Qed.

Lemma calculateIOU_finite (x1 y1 x2 y2 X1 Y1 X2 Y2 : Qc) :
  calculateIOU (finiteBox x1 y1 x2 y2) (finiteBox X1 Y1 X2 Y2) =
    xq_div (Fin (intersectionOf x1 y1 x2 y2 X1 Y1 X2 Y2))
           (Fin (areaOf x1 y1 x2 y2 + areaOf X1 Y1 X2 Y2
                 - intersectionOf x1 y1 x2 y2 X1 Y1 X2 Y2)).
Proof.
  unfold calculateIOU, finiteBox.
  rewrite !Math_max_finite, !Math_min_finite.
  change (@zero xq _) with (Fin 0).
  cbn [sub mul add div xq_number xq_sub xq_neg xq_add xq_mul].
  rewrite !Math_max_finite. reflexivity.
Qed.

Lemma intersection_of_flat_box (x1 y1 x2 y2 X1 Y1 X2 Y2 : Qc) :
  areaOf x1 y1 x2 y2 = 0%Qc -> intersectionOf x1 y1 x2 y2 X1 Y1 X2 Y2 = 0%Qc.
Proof.
  unfold areaOf, intersectionOf. intros Harea.
  apply Qcmult_integral in Harea.
  assert (forall a b A B : Qc, (b - a = 0 -> qmax 0 (qmin b B - qmax a A) = 0)%Qc) as Hflat.
  { intros a b A B Hab. apply Qc_is_canon. apply (f_equal this) in Hab.
    unfold Qcminus, Qcplus, Qcopp, Q2Qc in Hab. cbn [this] in Hab.
    apply Qred_eq_iff in Hab. rewrite Qred_correct in Hab.
    unfold qmax, qmin. qc_compare; qc_arith; try reflexivity; exfalso; lra. }
  destruct Harea as [Hx|Hy].
  - rewrite (Hflat _ _ _ _ Hx). ring.
  - rewrite (Hflat _ _ _ _ Hy). ring.
Qed.

(** ** Exact numbers: comparisons of finite values *)

Lemma xq_le_finite (p q : Qc) : (p <= q)%Qc -> xq_le (Fin p) (Fin q) = true.
Proof.
  intros Hle. cbn [xq_le xq_lt]. unfold Qcle in Hle.
  qc_compare; try done; exfalso; lra.
Qed.

Lemma xq_div_positive (p q : Qc) : (0 < q)%Qc -> xq_div (Fin p) (Fin q) = Fin (p / q)%Qc.
Proof.
  intros Hq. cbn [xq_div]. apply (proj1 (Qcgt_alt q 0)) in Hq. by rewrite Hq.
Qed.

Lemma Qc_div_nonneg (p q : Qc) : (0 <= p)%Qc -> (0 < q)%Qc -> (0 <= p / q)%Qc.
Proof.
  unfold Qcle, Qclt. intros Hp Hq. qc_arith.
  apply Qle_shift_div_l; [done|]. lra.
Qed.

Lemma xq_le_finite_inv (p q : Qc) : xq_le (Fin p) (Fin q) = true -> (p <= q)%Qc.
Proof.
  cbn [xq_le xq_lt]. unfold Qcle. qc_compare; try done; intros _; lra.
Qed.

Lemma Qc_ratio_bounds (i c : Qc) :
  (0 <= i)%Qc -> (i <= c)%Qc -> (0 < c)%Qc ->
  (0 <= i / c)%Qc /\ (i / c <= 1)%Qc.
Proof.
  unfold Qcle, Qclt. intros Hi Hic Hc. qc_arith. split.
  - apply Qle_shift_div_l; [done|]. lra.
  - apply Qle_shift_div_r; [done|]. lra.
Qed.

(** The shape invariant of the specification on one detection, in exact
    arithmetic. *)
Definition wellShaped (d : Detection xq) : Prop :=
  let '(x1, y1, x2, y2) := box d in
  xq_le x1 x2 = true /\ xq_le y1 y2 = true /\
  xq_le (frac 0 1) (confidence d) = true /\ xq_le (confidence d) (frac 1 1) = true /\
  0 <= classId d < Z.of_nat (length CLASS_LABELS).

(** ** Comparisons and the laws of IEEE 754 arithmetic *)

Section Comparisons.
Context {N : Type} `{JSNumber N}.
Local Open Scope js_scope.

(** [!Number.isNaN(a)]: NaN is the one value that differs from itself. *)
Definition isNumber (a : N) : bool := strictEq a a.

(** [a <= b]: false when either is NaN. *)
Definition leq (a b : N) : bool := isNumber a && isNumber b && negb (b <? a).

(** [Number.isFinite(a)] *)
Definition isFinite (a : N) : bool := (neg Infinity <? a) && (a <? Infinity).

Definition one : N := ofZ 1.
Definition two : N := ofZ 2.

(** A value within [0, 1]. *)
Definition unitRange (a : N) : bool := leq zero a && leq a one.

(** A finite number above 0. *)
Definition positiveFinite (a : N) : bool := (zero <? a) && (a <? Infinity).
End Comparisons.

Section Shape.
Context {N : Type} `{JSNumber N}.
Local Open Scope js_scope.

(** The shape invariant of the specification on one detection: [x1 <= x2],
    [y1 <= y2], a confidence in [0, 1] and a class that is an index of the
    label table. *)
Definition shapeInvariant (d : Detection N) : bool :=
  let '(x1, y1, x2, y2) := box d in
  leq x1 x2 && leq y1 y2 && unitRange (confidence d) &&
  (0 <=? classId d)%Z && (classId d <? Z.of_nat (length CLASS_LABELS))%Z.
End Shape.

(** The order of the numbers: [<] is a strict weak order on the values that
    are not NaN, with the infinities at its ends, and [===] is its
    equivalence. *)
Class IEEEOrder (N : Type) `{JSNumber N} : Prop := {
  NaN_isNumber : isNumber NaN = false;
  lt_isNumber a b : lt a b = true -> isNumber a = true /\ isNumber b = true;
  lt_irrefl a : lt a a = false;
  lt_trans a b c : lt a b = true -> lt b c = true -> lt a c = true;
  lt_cotrans a b c : isNumber b = true -> lt a c = true -> lt a b || lt b c = true;
  strictEq_leq a b : strictEq a b = leq a b && leq b a;
  Infinity_greatest a : isNumber a = true -> leq a Infinity = true;
  neg_Infinity_least a : isNumber a = true -> leq (neg Infinity) a = true;
  ofZ_finite z : - 2 ^ 53 <= z <= 2 ^ 53 -> isFinite (ofZ z) = true;
  ofZ_lt y z : - 2 ^ 53 <= y -> y < z -> z <= 2 ^ 53 -> lt (ofZ y) (ofZ z) = true
}.

(** The arithmetic: an operation returns NaN when an operand is NaN, the
    operations on finite operands return numbers (that may be infinite), and
    rounding is monotone. *)
Class IEEERounding (N : Type) `{JSNumber N} : Prop := {
  (* NaN propagates *)
  add_isNumber a b : isNumber (add a b) = true -> isNumber a = true /\ isNumber b = true;
  sub_isNumber a b : isNumber (sub a b) = true -> isNumber a = true /\ isNumber b = true;
  mul_isNumber a b : isNumber (mul a b) = true -> isNumber a = true /\ isNumber b = true;
  div_isNumber a b : isNumber (div a b) = true -> isNumber a = true /\ isNumber b = true;
  (* only [Infinity - Infinity], [0 * Infinity], [0 / 0] and [Infinity / Infinity]
     make a NaN of numbers *)
  add_finite a b : isFinite a = true -> isFinite b = true -> isNumber (add a b) = true;
  sub_finite a b : isFinite a = true -> isFinite b = true -> isNumber (sub a b) = true;
  mul_finite a b : isFinite a = true -> isFinite b = true -> isNumber (mul a b) = true;
  mul_positive a s :
    isNumber a = true -> positiveFinite s = true -> isNumber (mul a s) = true;
  div_positive a s :
    isNumber a = true -> positiveFinite s = true -> isNumber (div a s) = true;
  (* rounding is monotone, also where it overflows or underflows *)
  add_monotone a b c d :
    leq a b = true -> leq c d = true ->
    isNumber (add a c) = true -> isNumber (add b d) = true ->
    leq (add a c) (add b d) = true;
  sub_monotone a b c d :
    leq a b = true -> leq c d = true ->
    isNumber (sub a d) = true -> isNumber (sub b c) = true ->
    leq (sub a d) (sub b c) = true;
  mul_monotone a b c d :
    leq zero a = true -> leq a b = true -> leq zero c = true -> leq c d = true ->
    isNumber (mul a c) = true -> isNumber (mul b d) = true ->
    leq (mul a c) (mul b d) = true;
  mul_monotone_r a b s :
    leq a b = true -> leq zero s = true ->
    isNumber (mul a s) = true -> isNumber (mul b s) = true ->
    leq (mul a s) (mul b s) = true;
  (* results that are exact, up to the sign of zero *)
  add_zero_r a : isNumber a = true -> strictEq (add a zero) a = true;
  sub_zero_r a : isNumber a = true -> strictEq (sub a zero) a = true;
  mul_one_l a : isNumber a = true -> strictEq (mul one a) a = true;
  mul_zero a b :
    strictEq a zero = true -> isNumber (mul a b) = true -> strictEq (mul a b) zero = true;
  (* quotients by a positive number *)
  div_nonneg a s :
    leq zero a = true -> lt zero s = true -> isNumber (div a s) = true ->
    leq zero (div a s) = true;
  div_shrinks a s :
    leq zero a = true -> leq one s = true -> isNumber (div a s) = true ->
    leq (div a s) a = true
}.

(** [Math.max], [Math.min] and the quotient of [calculateIOU]. *)
Class IEEEOverlap (N : Type) `{JSNumber N} : Prop := {
  (* one step of Math.max or Math.min returns one of its two numbers, the
     greater or the smaller *)
  max2_select a b :
    isNumber a = true -> isNumber b = true ->
    strictEq (max2 a b) a || strictEq (max2 a b) b = true;
  max2_upper a b :
    isNumber a = true -> isNumber b = true ->
    leq a (max2 a b) && leq b (max2 a b) = true;
  min2_select a b :
    isNumber a = true -> isNumber b = true ->
    strictEq (min2 a b) a || strictEq (min2 a b) b = true;
  min2_lower a b :
    isNumber a = true -> isNumber b = true ->
    leq (min2 a b) a && leq (min2 a b) b = true;
  (* exact results, up to the sign of zero *)
  sub_self a : isFinite a = true -> strictEq (sub a a) zero = true;
  div_zero a b :
    strictEq a zero = true -> isNumber (div a b) = true -> strictEq (div a b) zero = true;
  mul_congruent a b c d :
    strictEq a b = true -> strictEq c d = true -> isNumber (mul a c) = true ->
    strictEq (mul a c) (mul b d) = true;
  add_nonneg a b :
    leq zero a = true -> leq zero b = true -> isNumber (add a b) = true;
  (* doubling is exact unless it overflows: from [2a <= s] follows
     [a <= s - a], and from [s <= 2a] follows [s - a <= a] *)
  sub_twice a s :
    leq zero a = true -> leq (add a a) s = true -> isNumber (sub s a) = true ->
    leq a (sub s a) = true;
  sub_twice_upper a s :
    leq zero a = true -> isFinite (add a a) = true -> leq s (add a a) = true ->
    leq (sub s a) a = true;
  (* a quotient [a / b] is NaN (for [0 / 0] and [Infinity / Infinity]), or
     within [0, 1] when [0 <= a <= b], or at least 1 when [0 < b <= a] *)
  div_unit a b :
    leq zero a = true -> leq a b = true -> isNumber (div a b) = true ->
    unitRange (div a b) = true;
  div_expands a b :
    lt zero b = true -> leq b a = true -> isNumber (div a b) = true ->
    leq one (div a b) = true
}.

(** *** The laws on boundary values of binary64

    The laws are those of round-to-nearest arithmetic.  They are evaluated
    here on the values where rounding, overflow and underflow happen: the
    zeros, the smallest and largest finite numbers, the neighbours of 1, the
    infinities and NaN. *)

Definition boundary64 : list float :=
  [ 0; -0; 1; -1; 2; 0.5; 3; 0x1p-1074; -0x1p-1074; 0x1p-1022; 0x1p-537;
    0x1.fffffffffffffp+1023; -0x1.fffffffffffffp+1023; 0x1p+1023; 0x1p+512;
    0x1.fffffffffffffp-1; 0x1.0000000000001p+0; 640; 0.25;
    0x1.4e718d7d7625ap+664; 0x1.87e92154ef7acp-665; 0x1.1ccf385ebc8ap+1023;
    infinity; neg_infinity; nan ]%float.

Definition all1 (p : float -> bool) : bool := forallb p boundary64.
Definition all2 (p : float -> float -> bool) : bool :=
  forallb (fun a => forallb (p a) boundary64) boundary64.
Definition all3 (p : float -> float -> float -> bool) : bool :=
  forallb (fun a => all2 (p a)) boundary64.
Definition all4 (p : float -> float -> float -> float -> bool) : bool :=
  forallb (fun a => all3 (p a)) boundary64.

Section Sampled.
Local Existing Instance binary64.
Local Open Scope js_scope.
Local Notation "a ==> b" := (implb a b) (at level 55, right associativity).

Definition order64 : bool :=
  negb (isNumber (NaN : float)) &&
  all2 (fun a b => lt a b ==> isNumber a && isNumber b) &&
  all1 (fun a => negb (lt a a)) &&
  all3 (fun a b c => lt a b ==> lt b c ==> lt a c) &&
  all3 (fun a b c => isNumber b ==> lt a c ==> lt a b || lt b c) &&
  all2 (fun a b => Bool.eqb (strictEq a b) (leq a b && leq b a)) &&
  all1 (fun a => isNumber a ==> leq a Infinity) &&
  all1 (fun a => isNumber a ==> leq (neg Infinity) a) &&
  forallb (fun z => isFinite (ofZ z : float)) [-2^53; -1; 0; 1; 2; 20; 640; 2^53]%Z &&
  forallb (fun '(y, z) => lt (ofZ y : float) (ofZ z))
    [(-2^53, -2^53 + 1); (-1, 0); (0, 1); (1, 2); (2^53 - 1, 2^53); (0, 2^53)]%Z.

Definition rounding64 : bool :=
  all2 (fun a b => isNumber (a + b) ==> isNumber a && isNumber b) &&
  all2 (fun a b => isNumber (a - b) ==> isNumber a && isNumber b) &&
  all2 (fun a b => isNumber (a * b) ==> isNumber a && isNumber b) &&
  all2 (fun a b => isNumber (a / b) ==> isNumber a && isNumber b) &&
  all2 (fun a b => isFinite a ==> isFinite b ==> isNumber (a + b)) &&
  all2 (fun a b => isFinite a ==> isFinite b ==> isNumber (a - b)) &&
  all2 (fun a b => isFinite a ==> isFinite b ==> isNumber (a * b)) &&
  all2 (fun a s => isNumber a ==> positiveFinite s ==> isNumber (a * s)) &&
  all2 (fun a s => isNumber a ==> positiveFinite s ==> isNumber (a / s)) &&
  all4 (fun a b c d => leq a b ==> leq c d ==> isNumber (a + c) ==> isNumber (b + d)
                       ==> leq (a + c) (b + d)) &&
  all4 (fun a b c d => leq a b ==> leq c d ==> isNumber (a - d) ==> isNumber (b - c)
                       ==> leq (a - d) (b - c)) &&
  all4 (fun a b c d => leq zero a ==> leq a b ==> leq zero c ==> leq c d ==>
                       isNumber (a * c) ==> isNumber (b * d) ==> leq (a * c) (b * d)) &&
  all3 (fun a b s => leq a b ==> leq zero s ==> isNumber (a * s) ==> isNumber (b * s)
                     ==> leq (a * s) (b * s)) &&
  all1 (fun a => isNumber a ==> strictEq (a + zero) a) &&
  all1 (fun a => isNumber a ==> strictEq (a - zero) a) &&
  all1 (fun a => isNumber a ==> strictEq (one * a) a) &&
  all2 (fun a b => strictEq a zero ==> isNumber (a * b) ==> strictEq (a * b) zero) &&
  all2 (fun a s => leq zero a ==> lt zero s ==> isNumber (a / s) ==> leq zero (a / s)) &&
  all2 (fun a s => leq zero a ==> leq one s ==> isNumber (a / s) ==> leq (a / s) a).

Definition overlap64 : bool :=
  all2 (fun a b => isNumber a ==> isNumber b ==>
                   strictEq (max2 a b) a || strictEq (max2 a b) b) &&
  all2 (fun a b => isNumber a ==> isNumber b ==> leq a (max2 a b) && leq b (max2 a b)) &&
  all2 (fun a b => isNumber a ==> isNumber b ==>
                   strictEq (min2 a b) a || strictEq (min2 a b) b) &&
  all2 (fun a b => isNumber a ==> isNumber b ==> leq (min2 a b) a && leq (min2 a b) b) &&
  all1 (fun a => isFinite a ==> strictEq (a - a) zero) &&
  all2 (fun a b => strictEq a zero ==> isNumber (a / b) ==> strictEq (a / b) zero) &&
  all4 (fun a b c d => strictEq a b ==> strictEq c d ==> isNumber (a * c)
                       ==> strictEq (a * c) (b * d)) &&
  all2 (fun a b => leq zero a ==> leq zero b ==> isNumber (a + b)) &&
  all2 (fun a s => leq zero a ==> leq (a + a) s ==> isNumber (s - a) ==> leq a (s - a)) &&
  all2 (fun a s => leq zero a ==> isFinite (a + a) ==> leq s (a + a) ==> leq (s - a) a) &&
  all2 (fun a b => leq zero a ==> leq a b ==> isNumber (a / b) ==> unitRange (a / b)) &&
  all2 (fun a b => lt zero b ==> leq b a ==> isNumber (a / b) ==> leq one (a / b)).
End Sampled.

Lemma binary64_laws_sampled : order64 = true /\ rounding64 = true /\ overlap64 = true.
Proof. repeat split; vm_compute; reflexivity. Qed.

(** ** Consequences of the laws *)

Ltac split_and_true :=
  repeat match goal with
    | H : _ && _ = true |- _ => apply andb_true_iff in H as [? ?]
    end.

Section OrderFacts.
Context {N : Type} `{JSNumber N} `{!IEEEOrder N}.
Local Open Scope js_scope.

Lemma leq_isNumber (a b : N) : leq a b = true -> isNumber a = true /\ isNumber b = true.
Proof. unfold leq. intros Hab. by split_and_true. Qed.

Lemma leq_not_lt (a b : N) : leq a b = true -> lt b a = false.
Proof. unfold leq. intros Hab. split_and_true. by apply negb_true_iff. Qed.

Lemma leq_intro (a b : N) :
  isNumber a = true -> isNumber b = true -> lt b a = false -> leq a b = true.
Proof. unfold leq. by intros -> -> ->. Qed.

Lemma leq_refl (a : N) : isNumber a = true -> leq a a = true.
Proof. intros Ha. apply leq_intro; [done|done|apply lt_irrefl]. Qed.

Lemma lt_leq (a b : N) : lt a b = true -> leq a b = true.
Proof.
  intros Hab. destruct (lt_isNumber _ _ Hab) as [Ha Hb].
  apply leq_intro; [done|done|].
  destruct (lt b a) eqn:Hba; [|done].
  pose proof (lt_trans _ _ _ Hab Hba) as Haa. by rewrite lt_irrefl in Haa.
Qed.

Lemma leq_trans (a b c : N) : leq a b = true -> leq b c = true -> leq a c = true.
Proof.
  intros Hab Hbc.
  destruct (leq_isNumber _ _ Hab) as [Ha Hb]. destruct (leq_isNumber _ _ Hbc) as [_ Hc].
  apply leq_intro; [done|done|].
  destruct (lt c a) eqn:Hca; [|done].
  pose proof (lt_cotrans c b a Hb Hca) as Hor. apply orb_true_iff in Hor as [Hcb|Hba].
  - by rewrite (leq_not_lt _ _ Hbc) in Hcb.
  - by rewrite (leq_not_lt _ _ Hab) in Hba.
Qed.

Lemma lt_leq_trans (a b c : N) : lt a b = true -> leq b c = true -> lt a c = true.
Proof.
  intros Hab Hbc. destruct (leq_isNumber _ _ Hbc) as [_ Hc].
  pose proof (lt_cotrans a c b Hc Hab) as Hor.
  apply orb_true_iff in Hor as [Hac|Hcb]; [done|].
  by rewrite (leq_not_lt _ _ Hbc) in Hcb.
Qed.

Lemma leq_lt_trans (a b c : N) : leq a b = true -> lt b c = true -> lt a c = true.
Proof.
  intros Hab Hbc. destruct (leq_isNumber _ _ Hab) as [Ha _].
  pose proof (lt_cotrans b a c Ha Hbc) as Hor.
  apply orb_true_iff in Hor as [Hba|Hac]; [|done].
  by rewrite (leq_not_lt _ _ Hab) in Hba.
Qed.

Lemma strictEq_leq_l (a b : N) : strictEq a b = true -> leq a b = true.
Proof. rewrite strictEq_leq. intros Hab. by split_and_true. Qed.

Lemma strictEq_leq_r (a b : N) : strictEq a b = true -> leq b a = true.
Proof. rewrite strictEq_leq. intros Hab. by split_and_true. Qed.

Lemma leq_antisym (a b : N) : leq a b = true -> leq b a = true -> strictEq a b = true.
Proof. rewrite strictEq_leq. by intros -> ->. Qed.

Lemma isFinite_isNumber (a : N) : isFinite a = true -> isNumber a = true.
Proof. unfold isFinite. intros Ha. split_and_true. by eapply lt_isNumber. Qed.

Lemma isFinite_between (lo a hi : N) :
  isFinite lo = true -> leq lo a = true -> leq a hi = true -> isFinite hi = true ->
  isFinite a = true.
Proof.
  unfold isFinite. intros Hlo Hloa Hahi Hhi. split_and_true.
  apply andb_true_iff. split.
  - by apply (lt_leq_trans _ lo).
  - by apply (leq_lt_trans _ hi).
Qed.

Lemma zero_isFinite : isFinite (zero : N) = true.
Proof. apply ofZ_finite. lia. Qed.


Lemma zero_isNumber : isNumber (zero : N) = true.
Proof. apply isFinite_isNumber, zero_isFinite. Qed.


Lemma zero_leq_one : leq (zero : N) one = true.
Proof. apply lt_leq, ofZ_lt; lia. Qed.





(** A comparison with a value does not tell it from a value that is [===]. *)
Lemma lt_strictEq_r (t a b : N) : strictEq a b = true -> lt t a = lt t b.
Proof.
  intros Hab. destruct (lt t a) eqn:Hta, (lt t b) eqn:Htb; try done.
  - by rewrite (lt_leq_trans _ _ _ Hta (strictEq_leq_l _ _ Hab)) in Htb.
  - by rewrite (lt_leq_trans _ _ _ Htb (strictEq_leq_r _ _ Hab)) in Hta.
Qed.
End OrderFacts.

Section RoundingFacts.
Context {N : Type} `{JSNumber N} `{!IEEEOrder N} `{!IEEERounding N}.
Local Open Scope js_scope.

Lemma mul_nonneg (a b : N) :
  leq zero a = true -> leq zero b = true -> isNumber (a * b) = true ->
  leq zero (a * b) = true.
Proof.
  intros Ha Hb Hab.
  assert (isNumber (zero * zero : N) = true) as Hzz
    by (apply mul_finite; apply zero_isFinite).
  eapply leq_trans;
    [|apply (mul_monotone zero a zero b); try done; apply leq_refl, zero_isNumber].
  apply strictEq_leq_r, mul_zero; [apply zero_isNumber|done].
Qed.





End RoundingFacts.

(** ** The records parseYOLOv8Output keeps, in every number system *)

Section Records.
Context {N : Type} `{JSNumber N}.
Local Open Scope js_scope.
Variables (data : list N) (originalWidth originalHeight : N).
Variables (confidenceThreshold iouThreshold modelInputSize : N).



Context `{!IEEEOrder N} `{!IEEERounding N}.


End Records.

(** ** The laws in exact arithmetic *)

Lemma isNumber_xq (a : xq) : isNumber a = negb (xq_isNaN a).
Proof.
  destruct a as [q| | |]; try done.
  unfold isNumber. cbn. by rewrite (proj1 (Qceq_alt q q)).
Qed.

Lemma leq_xq (a b : xq) : leq a b = xq_le a b.
Proof. unfold leq. rewrite !isNumber_xq. by destruct a, b. Qed.

Ltac xq_normal :=
  unfold unitRange, positiveFinite, isFinite, one, two, zero in *;
  rewrite ?leq_xq, ?isNumber_xq in *;
  cbn [lt strictEq add sub mul div neg xq_number ofZ Infinity NaN max2 min2] in *.

Ltac xq_solve :=
  intros; repeat (progress (cbn in *; unfold Qccompare in *; qc_compare));
  try done; qc_arith;
  change (inject_Z 0) with 0%Q in *; change (inject_Z 1) with 1%Q in *;
  change (inject_Z 2) with 2%Q in *;
  try done; try lra; try nra; try (exfalso; lra); try (exfalso; nra).

#[export] Instance xq_order : IEEEOrder xq.
Proof.
  split.
  - reflexivity.
  - intros a b. xq_normal. by destruct a, b.
  - intros a. xq_normal. destruct a; xq_solve.
  - intros a b c. xq_normal. destruct a, b, c; xq_solve.
  - intros a b c. xq_normal. destruct a, b, c; xq_solve.
  - intros a b. xq_normal. destruct a, b; xq_solve.
  - intros a. xq_normal. by destruct a.
  - intros a. xq_normal. by destruct a.
  - intros z Hz. reflexivity.
  - intros y z _ Hyz _. xq_normal. xq_solve.
    all: exfalso;
      match goal with
      | E : (inject_Z _ == inject_Z _)%Q |- _ => unfold Qeq in E; cbn in E
      | E : (inject_Z _ < inject_Z _)%Q |- _ => unfold Qlt in E; cbn in E
      end; lia.
Qed.

Lemma xq_lt_finite (p q : Qc) : xq_lt (Fin p) (Fin q) = true <-> (p < q)%Qc.
Proof.
  cbn [xq_lt]. unfold Qclt. qc_compare; split; try done; intros; exfalso; lra.
Qed.

Lemma Qc_div_shrinks (p q : Qc) : (0 <= p)%Qc -> (1 <= q)%Qc -> (p / q <= p)%Qc.
Proof.
  unfold Qcle. intros Hp Hq. qc_arith.
  apply Qle_shift_div_r; [lra|nra].
Qed.

Lemma Qc_div_expands (p q : Qc) : (0 < q)%Qc -> (q <= p)%Qc -> (1 <= p / q)%Qc.
Proof.
  unfold Qcle, Qclt. intros Hq Hqp. qc_arith.
  apply Qle_shift_div_l; [done|lra].
Qed.

Lemma xq_div_finite (p q : Qc) : (0 < q)%Qc -> div (Fin p) (Fin q) = Fin (p / q)%Qc.
Proof. apply xq_div_positive. Qed.

#[export] Instance xq_rounding : IEEERounding xq.
Proof.
  split.
  - intros a b. xq_normal. by destruct a, b.
  - intros a b. xq_normal. by destruct a, b.
  - intros a b. xq_normal. by destruct a, b.
  - intros a b. xq_normal. by destruct a, b.
  - intros a b. xq_normal. by destruct a, b.
  - intros a b. xq_normal. by destruct a, b.
  - intros a b. xq_normal. by destruct a, b.
  - intros a s. xq_normal. destruct a, s; xq_solve.
  - intros a s. xq_normal. destruct a, s; xq_solve.
  - intros a b c d. xq_normal. destruct a, b, c, d; xq_solve.
  - intros a b c d. xq_normal. destruct a, b, c, d; xq_solve.
  - intros a b c d. xq_normal. destruct a, b, c, d; xq_solve.
  - intros a b s. xq_normal. destruct a, b, s; xq_solve.
  - intros a. xq_normal. destruct a; xq_solve.
  - intros a. xq_normal. destruct a; xq_solve.
  - intros a. xq_normal. destruct a; xq_solve.
  - intros a b. xq_normal. destruct a, b; xq_solve.
  - intros a s. rewrite !leq_xq, isNumber_xq.
    destruct a as [p| | |], s as [q| | |]; try (by xq_solve).
    intros Hp Hq _. apply xq_le_finite_inv in Hp. apply xq_lt_finite in Hq.
    rewrite xq_div_finite by done. by apply xq_le_finite, Qc_div_nonneg.
  - intros a s. rewrite !leq_xq, isNumber_xq.
    destruct a as [p| | |], s as [q| | |]; try (by xq_solve).
    intros Hp Hq _. apply xq_le_finite_inv in Hp, Hq.
    assert (0 < q)%Qc as Hpos by (by apply (Qclt_le_trans _ 1)).
    rewrite xq_div_finite by done. by apply xq_le_finite, Qc_div_shrinks.
Qed.

#[export] Instance xq_overlap : IEEEOverlap xq.
Proof.
  split.
  - intros a b. xq_normal. unfold xq_max2. destruct a, b; xq_solve.
  - intros a b. xq_normal. unfold xq_max2. destruct a, b; xq_solve.
  - intros a b. xq_normal. unfold xq_min2. destruct a, b; xq_solve.
  - intros a b. xq_normal. unfold xq_min2. destruct a, b; xq_solve.
  - intros a. xq_normal. destruct a; xq_solve.
  - intros a b. xq_normal. destruct a, b; xq_solve.
  - intros a b c d. xq_normal. destruct a, b, c, d; xq_solve.
  - intros a b. xq_normal. destruct a, b; xq_solve.
  - intros a s. xq_normal. destruct a, s; xq_solve.
  - intros a s. xq_normal. destruct a, s; xq_solve.
  - intros a b. unfold unitRange. rewrite !leq_xq, isNumber_xq.
    destruct a as [p| | |], b as [q| | |]; try (by xq_solve).
    intros Hp Hpq Hnum. apply xq_le_finite_inv in Hp, Hpq.
    destruct (Qc_dec q 0) as [[Hq|Hq]|Hq].
    + exfalso. apply (Qclt_not_le _ _ Hq). by apply (Qcle_trans _ p).
    + rewrite xq_div_finite by done.
      destruct (Qc_ratio_bounds p q Hp Hpq Hq) as [Hlow Hhigh].
      apply andb_true_iff. split; by apply xq_le_finite.
    + subst q. assert (p = 0)%Qc as -> by (by apply Qcle_antisym). done.
  - intros a b. rewrite !leq_xq, isNumber_xq.
    destruct a as [p| | |], b as [q| | |]; try (by xq_solve).
    intros Hq Hqp _. apply xq_lt_finite in Hq. apply xq_le_finite_inv in Hqp.
    rewrite xq_div_finite by done. by apply xq_le_finite, Qc_div_expands.
Qed.

(** In exact arithmetic the two formulations of the shape invariant agree. *)
Lemma wellShaped_shapeInvariant (d : Detection xq) :
  wellShaped d <-> shapeInvariant d = true.
Proof.
  unfold wellShaped, shapeInvariant, unitRange.
  destruct (box d) as [[[x1 y1] x2] y2]. rewrite !leq_xq.
  change (@zero xq _) with (frac 0 1). change (@one xq _) with (frac 1 1).
  rewrite !andb_true_iff, Z.leb_le, Z.ltb_lt. tauto.
Qed.

(** ** The test of the loop body and the size of a record *)

Section Resize.
Context {N : Type} `{JSNumber N}.

Lemma predictionSlice_at (data : list N) (i k : nat) :
  predictionSlice data i !! k =
    if decide (k < 84)%nat then data !! (i * 84 + k)%nat else None.
Proof.
  unfold predictionSlice, slice, numValuesPerPrediction.
  replace (i * 84 + 84 - i * 84)%nat with 84%nat by lia.
  rewrite lookup_take. case_decide; [by rewrite lookup_drop|done].
Qed.

(** The tensor with the width and the height of record [i] replaced. *)
Definition resized (data : list N) (i : nat) (w h : N) : list N :=
  <[(i * 84 + 2)%nat := w]> (<[(i * 84 + 3)%nat := h]> data).

Lemma resized_length (data : list N) (i : nat) (w h : N) :
  length (resized data i w h) = length data.
Proof. unfold resized. by rewrite !length_insert. Qed.

(** From its fifth value on, every record of the resized tensor is as it
    was. *)
Lemma resized_slice (data : list N) (i j k : nat) (w h : N) :
  (4 <= k)%nat ->
  predictionSlice (resized data i w h) j !! k = predictionSlice data j !! k.
Proof.
  intros Hk. rewrite !predictionSlice_at. case_decide; [|done].
  unfold resized. by rewrite !list_lookup_insert_ne by lia.
Qed.

Lemma resized_class_confs (data : list N) (i j : nat) (w h : N) :
  class_confs (resized data i w h) j = class_confs data j.
Proof.
  unfold class_confs. apply list_eq. intros k.
  rewrite !lookup_drop. apply resized_slice. lia.
Qed.

Lemma resized_totalConfidenceOf (data : list N) (i j : nat) (w h : N) :
  totalConfidenceOf (resized data i w h) j = totalConfidenceOf data j.
Proof.
  unfold totalConfidenceOf, classIdOf.
  by rewrite resized_class_confs, resized_slice by lia.
Qed.

Lemma resized_retained (data : list N) (confidenceThreshold : N) (i j : nat) (w h : N) :
  retained (resized data i w h) confidenceThreshold j = retained data confidenceThreshold j.
Proof.
  unfold retained, classIdOf.
  by rewrite resized_totalConfidenceOf, resized_class_confs.
Qed.

Lemma class_confs_beyond (data : list N) (i : nat) :
  (length data <= i * 84 + 5)%nat -> class_confs data i = [].
Proof.
  intros Hlen. apply length_zero_iff_nil.
  unfold class_confs, predictionSlice, slice, numValuesPerPrediction.
  rewrite length_drop, length_take, length_drop. lia.
Qed.
End Resize.

Lemma retained_in_range (data : list xq) (confidenceThreshold : xq) (i : nat) :
  retained data confidenceThreshold i = true -> (i * 84 + 5 < length data)%nat.
Proof.
  intros Hkept. destruct (decide (i * 84 + 5 < length data)%nat) as [|Hlen]; [done|].
  rewrite retained_no_scores in Hkept; [done|].
  apply class_confs_beyond. lia.
Qed.

(** ** The scorer: Math.max and indexOf *)

Lemma xq_lt_irrefl (a : xq) : xq_lt a a = false.
Proof.
  destruct (xq_lt a a) eqn:Haa; [|done].
  pose proof (xq_lt_asym a a Haa). congruence.
Qed.

Lemma xq_max2_cases (a b : xq) :
  a <> XNaN -> b <> XNaN ->
  let m := xq_max2 a b in
  m <> XNaN /\ xq_lt m a = false /\ xq_lt m b = false /\ (m = a \/ m = b).
Proof.
  intros Ha Hb. unfold xq_max2.
  assert (xq_isNaN a || xq_isNaN b = false) as -> by (by destruct a, b).
  destruct (xq_lt a b) eqn:Hab.
  - repeat split; [done|by apply xq_lt_asym|apply xq_lt_irrefl|by right].
  - repeat split; [done|apply xq_lt_irrefl|done|by left].
Qed.

(** [Math.max] of numbers returns a number no element exceeds, the start
    value or one of the elements. *)
Lemma fold_max2 (l : list xq) (acc : xq) :
  Forall (fun x => x <> XNaN) l -> acc <> XNaN ->
  let m := fold_left xq_max2 l acc in
  m <> XNaN /\ xq_lt m acc = false /\
  (forall x, x ∈ l -> xq_lt m x = false) /\ (m = acc \/ m ∈ l).
Proof.
  intros Hl. revert acc. induction Hl as [|x l Hx Hl IH]; intros acc Hacc; cbn.
  - repeat split; [done|apply xq_lt_irrefl|by intros x Hx%elem_of_nil|by left].
  - destruct (xq_max2_cases acc x Hacc Hx) as (Hm & Hma & Hmx & Hcase).
    destruct (IH (xq_max2 acc x) Hm) as (Hn & Hnm & Hnl & Hin).
    repeat split.
    + done.
    + by apply (xq_not_lt_trans _ (xq_max2 acc x)).
    + intros y Hy. apply elem_of_cons in Hy as [->|Hy]; [|by apply Hnl].
      by apply (xq_not_lt_trans _ (xq_max2 acc x)).
    + destruct Hin as [Hin|Hin].
      * rewrite Hin.
        destruct Hcase as [Hc|Hc]; rewrite Hc; [by left|right; apply list_elem_of_here].
      * right. by apply list_elem_of_further.
Qed.

Lemma xq_lt_NInf (x : xq) : x <> XNaN -> xq_lt NInf x = false -> x = NInf.
Proof. by destruct x. Qed.

Lemma Math_max_elem (l : list xq) :
  Forall (fun x => x <> XNaN) l -> l <> [] ->
  Math_max l <> XNaN /\ Math_max l ∈ l /\
  (forall x, x ∈ l -> xq_lt (Math_max l) x = false).
Proof.
  intros Hl Hne. unfold Math_max.
  change (neg Infinity) with NInf. change (@max2 xq _) with xq_max2.
  destruct (fold_max2 l NInf Hl ltac:(done)) as (Hm & Hacc & Hge & Hin).
  repeat split; try done.
  destruct Hin as [Hin|Hin]; [|done].
  destruct l as [|x l]; [done|].
  assert (x = NInf) as ->.
  { apply xq_lt_NInf; [by apply Forall_cons in Hl as [? _]|].
    rewrite <- Hin. apply Hge, list_elem_of_here. }
  rewrite Hin. apply list_elem_of_here.
Qed.

Lemma xq_strictEq_eq (a b : xq) : xq_strictEq a b = true <-> a = b /\ a <> XNaN.
Proof.
  destruct a as [p| | |], b as [q| | |]; cbn; try (split; [done|by intros [? ?]]).
  - destruct (p ?= q)%Qc eqn:Hpq.
    + apply Qceq_alt in Hpq as ->. done.
    + split; [done|]. intros [[= ->] _].
      by rewrite (proj1 (Qceq_alt q q) eq_refl) in Hpq.
    + split; [done|]. intros [[= ->] _].
      by rewrite (proj1 (Qceq_alt q q) eq_refl) in Hpq.
Qed.

Lemma xq_lt_total (a b : xq) :
  a <> XNaN -> b <> XNaN -> a <> b -> xq_lt a b = false -> xq_lt b a = true.
Proof.
  destruct a as [p| | |], b as [q| | |]; try done. cbn [xq_lt]. intros _ _ Hne.
  qc_compare; try done; exfalso; try lra.
  all: apply Hne; f_equal; by apply Qc_is_canon.
Qed.

(** [indexOf] finds the first position of a number the array holds. *)
Lemma indexOf_from_elem (l : list xq) (v : xq) (z : Z) :
  v ∈ l -> v <> XNaN ->
  exists k : nat,
    indexOf_from l v z = z + Z.of_nat k /\ l !! k = Some v /\
    forall j c, (j < k)%nat -> l !! j = Some c -> c <> v.
Proof.
  intros Hin Hv. revert z. induction l as [|x l IH]; intros z.
  - by apply elem_of_nil in Hin.
  - cbn [indexOf_from]. change (@strictEq xq _) with xq_strictEq.
    destruct (xq_strictEq x v) eqn:Heq.
    + apply xq_strictEq_eq in Heq as [-> _]. exists 0%nat.
      repeat split; [lia|]. intros j c Hj. lia.
    + assert (x <> v) as Hne.
      { intros ->. assert (xq_strictEq v v = true) as Hvv by (by apply xq_strictEq_eq).
        congruence. }
      apply elem_of_cons in Hin as [Hin|Hin]; [done|].
      destruct (IH Hin (z + 1)) as (k & Hk & Hlk & Hfirst).
      exists (S k). repeat split; [lia|done|].
      intros [|j] c Hj Hc; [by injection Hc as <-|].
      apply (Hfirst j); [lia|done].
Qed.

Lemma at_index_of_nat {A : Type} (arr : list A) (k : nat) :
  at_index arr (Z.of_nat k) = arr !! k.
Proof.
  unfold at_index. destruct (Z.of_nat k <? 0) eqn:Hk; [apply Z.ltb_lt in Hk; lia|].
  by rewrite Nat2Z.id.
Qed.

(** Following the specification: [k] is the argmax of [scores], the lowest
    index among ties. *)
Definition firstArgmax (scores : list xq) (k : nat) : Prop :=
  exists c, scores !! k = Some c /\
    (forall j c', scores !! j = Some c' -> xq_lt c c' = false) /\
    (forall j c', (j < k)%nat -> scores !! j = Some c' -> xq_lt c' c = true).

(** The scorer on a record that has class scores, all of them numbers: the
    class is the first argmax of [class_confs], the confidence is
    [obj_conf] times the score of that class, and the record is retained when
    the confidence strictly exceeds the threshold and the class is labelled
    'person'. *)
Lemma scorer_semantics (data : list xq) (confidenceThreshold : xq) (i : nat) :
  class_confs data i <> [] ->
  Forall (fun c => c <> XNaN) (class_confs data i) ->
  exists (k : nat) (c : xq),
    classIdOf data i = Z.of_nat k /\
    firstArgmax (class_confs data i) k /\
    class_confs data i !! k = Some c /\
    totalConfidenceOf data i = xq_mul (toNumber (predictionSlice data i !! 4%nat)) c /\
    retained data confidenceThreshold i =
      xq_lt confidenceThreshold (totalConfidenceOf data i)
      && bool_decide (CLASS_LABELS !! k = Some "person"%string).
Proof.
  intros Hne Hnum.
  destruct (Math_max_elem _ Hnum Hne) as (Hm & Hin & Hge).
  destruct (indexOf_from_elem _ _ 0 Hin Hm) as (k & Hk & Hlk & Hfirst).
  rewrite Z.add_0_l in Hk. fold (indexOf (class_confs data i) (Math_max (class_confs data i))) in Hk.
  fold (classIdOf data i) in Hk.
  exists k, (Math_max (class_confs data i)). repeat split; try done.
  - exists (Math_max (class_confs data i)). repeat split; [done| |].
    + intros j c' Hj. apply Hge. by eapply list_elem_of_lookup_2.
    + intros j c' Hj Hc'. apply xq_lt_total.
      * done.
      * apply (proj1 (Forall_forall _ _) Hnum). by eapply list_elem_of_lookup_2.
      * intros Heq. by eapply Hfirst.
      * apply Hge. by eapply list_elem_of_lookup_2.
  - unfold totalConfidenceOf. by rewrite Hk, at_index_of_nat, Hlk.
  - unfold retained, isPerson. by rewrite Hk, at_index_of_nat.
Qed.

(** In a full record of 84 values, 79 values follow the five leading fields:
    [class_confs] holds the scores of the classes 0 to 78. *)
Lemma class_confs_length (data : list xq) (i : nat) :
  (i * 84 + 84 <= length data)%nat -> length (class_confs data i) = 79%nat.
Proof.
  intros Hfull. unfold class_confs, predictionSlice, slice, numValuesPerPrediction.
  rewrite length_drop, length_take, length_drop. lia.
Qed.

(** * The properties of the specification *)

(** C1 (the specification's coordinate-mapping scenario).  The candidate at
    normalized (0.5, 0.5) with normalized size (0.2, 0.2), model input size 640
    and a 1280 x 960 image should map to [512, 384, 768, 576].  The source
    computes [y2_model] as [y_center_model + h_norm / 2], not
    [y_center_model + h_model / 2]: the box it returns is
    [512, 384, 768, 480.15].  In binary64, with 0.2 as the [Float32Array]
    holds it, the box is the same up to rounding. *)
Theorem coordinate_mapping_scenario :
  parseYOLOv8Output (personRecord (frac 1 2) (frac 1 2) (frac 1 5) (frac 1 5) (frac 1 1) (frac 1 1))
                    (frac 1280 1) (frac 960 1)
                    default_confidenceThreshold default_iouThreshold default_modelInputSize
  = [ {| box := (frac 512 1, frac 384 1, frac 768 1, frac 9603 20);
         confidence := frac 1 1; classId := 0 |} ] /\
  parseYOLOv8Output (H := binary64)
                    (personRecord64 0.5 0.5 0x1.99999ap-3 0x1.99999ap-3 1 1)%float
                    1280%float 960%float
                    default_confidenceThreshold64 default_iouThreshold64 default_modelInputSize64
  = [ {| box := (0x1.ffffffe000000p+8, 0x1.7fffffe800000p+8,
                 0x1.8000001000000p+9, 0x1.e026666670000p+8)%float;
         confidence := 1%float; classId := 0 |} ] /\
  xq_strictEq (frac 9603 20) (frac 576 1) = false.
Proof. evaluate. Qed.

(** C2, as the specification states it, fails: a tensor of 85 values (one
    full record and one more value) is not a multiple of 84 long, and the call
    returns a list with the detection of the full record; in binary64 too. *)
Lemma no_MalformedTensor_counterexample :
  let tensor := personRecord (frac 1 2) (frac 1 2) (frac 1 4) (frac 1 4) (frac 1 1) (frac 1 1)
                  ++ [frac 1 2] in
  let tensor64 := (personRecord64 0.5 0.5 0.25 0.25 1 1 ++ [0.5])%float in
  (length tensor mod numValuesPerPrediction)%nat = 1%nat /\
  parseYOLOv8Output_call tensor (frac 1280 1) (frac 960 1)
      default_confidenceThreshold default_iouThreshold default_modelInputSize
  = Returns [ {| box := (frac 480 1, frac 360 1, frac 800 1, frac 7683 16);
                 confidence := frac 1 1; classId := 0 |} ] /\
  parseYOLOv8Output_call (H := binary64) tensor64 1280%float 960%float
      default_confidenceThreshold64 default_iouThreshold64 default_modelInputSize64
  = Returns [ {| box := (480, 360, 800, 480.1875)%float;
                 confidence := 1%float; classId := 0 |} ].
Proof. evaluate. Qed.

(** C2, amended.  [parseYOLOv8Output] has no error path: for a tensor of any
    length the call returns.  The loop decodes one record per started group
    of 84 values, so the values behind the last full record are decoded as one
    more, partial record; the candidates are the records that pass the test
    of the loop body. *)
Theorem parse_returns_for_every_length (data : list xq)
    (originalWidth originalHeight : xq)
    (confidenceThreshold iouThreshold modelInputSize : xq) :
  let records := seq 0 ((length data + 83) / 84) in
  let kept := filter (fun i => retained data confidenceThreshold i) records in
  let cands := collectCandidates data originalWidth originalHeight
                                 confidenceThreshold modelInputSize in
  (exists detections,
     parseYOLOv8Output_call data originalWidth originalHeight
         confidenceThreshold iouThreshold modelInputSize = Returns detections) /\
  boxes cands = mappedBox data originalWidth originalHeight modelInputSize <$> kept /\
  confidences cands = totalConfidenceOf data <$> kept /\
  classIds cands = classIdOf data <$> kept.
Proof.
  intros records kept cands. split; [by eexists|].
  apply collectCandidates_spec.
Qed.

(** C3, as stated, fails: the record below has width and height 0, so
    [w_px = 0] and [h_px = 0], and its box of area 0 is returned; in binary64
    too. *)
Lemma degenerate_box_counterexample :
  let tensor := personRecord (frac 1 2) (frac 1 2) (frac 0 1) (frac 0 1) (frac 1 1) (frac 1 1) in
  let tensor64 := (personRecord64 0.5 0.5 0 0 1 1)%float in
  xq_le (xq_mul (frac 0 1) default_modelInputSize) (frac 0 1) = true /\
  parseYOLOv8Output tensor (frac 1280 1) (frac 960 1)
      default_confidenceThreshold default_iouThreshold default_modelInputSize
  = [ {| box := (frac 640 1, frac 480 1, frac 640 1, frac 480 1);
         confidence := frac 1 1; classId := 0 |} ] /\
  parseYOLOv8Output (H := binary64) tensor64 1280%float 960%float
      default_confidenceThreshold64 default_iouThreshold64 default_modelInputSize64
  = [ {| box := (640, 480, 640, 480)%float;
         confidence := 1%float; classId := 0 |} ].
Proof. evaluate. Qed.

(** C3, amended.  The loop body tests the confidence and the class only; no
    candidate is dropped for its width or height, and nothing is raised.
    Replacing the width and the height of a record by any values (zero,
    negative, NaN) leaves the test of every record as it was; a record that
    passes the test is pushed as a candidate with the box mapped from those
    values; and when it is the one record of the tensor, the call returns
    exactly its detection. *)
Theorem degenerate_boxes_are_kept (data : list xq)
    (originalWidth originalHeight confidenceThreshold iouThreshold modelInputSize : xq)
    (i : nat) :
  retained data confidenceThreshold i = true ->
  (forall w h j, retained (resized data i w h) confidenceThreshold j =
                 retained data confidenceThreshold j) /\
  (forall w h,
     mappedBox (resized data i w h) originalWidth originalHeight modelInputSize i
       ∈ boxes (collectCandidates (resized data i w h) originalWidth originalHeight
                                  confidenceThreshold modelInputSize)) /\
  ((length data <= 84)%nat ->
   forall w h,
     parseYOLOv8Output (resized data i w h) originalWidth originalHeight
                       confidenceThreshold iouThreshold modelInputSize
     = [ {| box := mappedBox (resized data i w h)
                             originalWidth originalHeight modelInputSize i;
            confidence := totalConfidenceOf data i;
            classId := 0 |} ]).
Proof.
  intros Hkept. pose proof (retained_in_range _ _ _ Hkept) as Hrange.
  split; [intros w h j; apply resized_retained|].
  assert (forall w h, i ∈ keptRecords (resized data i w h) confidenceThreshold) as Hin.
  { intros w h. unfold keptRecords. apply list_elem_of_filter. split.
    - apply Is_true_true. by rewrite resized_retained.
    - apply elem_of_seq. split; [lia|]. rewrite Nat.add_0_l.
      apply recordCount_lt. rewrite resized_length. lia. }
  split.
  - intros w h.
    destruct (collectCandidates_spec (resized data i w h) originalWidth originalHeight
                confidenceThreshold modelInputSize) as (Hb & _).
    cbv zeta in Hb. rewrite Hb. by apply list_elem_of_fmap_2.
  - intros Hlen w h.
    assert (i = 0%nat) as -> by lia.
    unfold parseYOLOv8Output.
    destruct (collectCandidates_spec (resized data 0 w h) originalWidth originalHeight
                confidenceThreshold modelInputSize) as (Hb & Hc & Hi).
    cbv zeta in Hb, Hc, Hi. rewrite Hb, Hc, Hi.
    assert (keptRecords (resized data 0 w h) confidenceThreshold = [0%nat]) as ->.
    { unfold keptRecords.
      assert (recordCount (resized data 0 w h) = 1%nat) as ->.
      { pose proof (recordCount_lt (resized data 0 w h) 0) as H0.
        pose proof (recordCount_lt (resized data 0 w h) 1) as H1.
        rewrite resized_length in H0, H1. lia. }
      change (seq 0 1) with [0%nat].
      rewrite filter_cons, filter_nil.
      rewrite decide_True; [done|]. apply Is_true_true. by rewrite resized_retained. }
    assert (classIdOf (resized data 0 w h) 0 = 0) as Hclass.
    { pose proof (resized_retained data confidenceThreshold 0 0 w h) as Hsame.
      rewrite Hkept in Hsame. unfold retained in Hsame.
      apply andb_true_iff in Hsame as [_ Hp]. by apply isPerson_zero. }
    cbn [fmap list_fmap]. rewrite Hclass, resized_totalConfidenceOf.
    unfold nonMaxSuppression, sortedIndices, Array_sort.
    cbn [length Nat.eqb imap foldr sort_insert fmap list_fmap snd replicate selectLoop
         lookup list_lookup truthy default suppressLoop fold_left app].
    reflexivity.
Qed.

Lemma degenerate_boxes_are_kept_witness :
  let tensor := personRecord (frac 1 2) (frac 1 2) (frac 1 5) (frac 1 5) (frac 1 1) (frac 1 1) in
  let flat := resized tensor 0 (frac 0 1) (frac (-1) 4) in
  parseYOLOv8Output flat (frac 1280 1) (frac 960 1)
    default_confidenceThreshold default_iouThreshold default_modelInputSize
  = [ {| box := mappedBox flat (frac 1280 1) (frac 960 1) default_modelInputSize 0;
         confidence := totalConfidenceOf tensor 0;
         classId := 0 |} ].
Proof.
  refine (proj2 (proj2 (degenerate_boxes_are_kept
            (personRecord (frac 1 2) (frac 1 2) (frac 1 5) (frac 1 5) (frac 1 1) (frac 1 1))
            (frac 1280 1) (frac 960 1)
            default_confidenceThreshold default_iouThreshold default_modelInputSize
            0 eq_refl)) _ (frac 0 1) (frac (-1) 4)).
  vm_compute. lia.
Defined.

(** C4. Threshold monotonicity: for a fixed tensor, image size, IOU threshold
    and model input size, raising the confidence threshold from [t1] to
    [t2 >= t1] never increases the number of detections returned. *)
Theorem threshold_monotonicity (data : list xq) (originalWidth originalHeight : xq)
    (iouThreshold modelInputSize t1 t2 : xq) :
  xq_le t1 t2 = true ->
  (length (parseYOLOv8Output data originalWidth originalHeight t2 iouThreshold modelInputSize)
   <= length (parseYOLOv8Output data originalWidth originalHeight t1 iouThreshold modelInputSize))%nat.
Proof.
  intros Hle. rewrite !parse_length.
  apply prefix_length, pick_prefix, fmap_prefix.
  rewrite (kept_raise data t1 t2 Hle).
  pose proof (keptRecords_scored data t1) as Hscored.
  rewrite <- (filter_isort_by (worseRecord data) (scored data)); try done.
  - apply (descending_filter_prefix (worseRecord data) (scored data)).
    + intros i j Hi Hlow Hij Hj. apply Hlow.
      apply Is_true_true. apply Is_true_true in Hj.
      unfold worseRecord in Hij.
      destruct (xq_lt t2 (totalConfidenceOf data i)) eqn:Hti; [done|].
      by rewrite (xq_not_lt_trans _ _ _ Hi Hti Hij) in Hj.
    + by rewrite isort_by_perm.
    + apply (isort_by_descending (worseRecord data) (scored data)); try done.
      * intros i j _ _. apply xq_lt_asym.
      * intros i j k _ Hj _. by apply xq_not_lt_trans.
  - intros i j _ _. apply xq_lt_asym.
  - intros i j k _ Hj _. by apply xq_not_lt_trans.
Qed.

Lemma threshold_monotonicity_witness :
  (length (parseYOLOv8Output
             (personRecord (frac 1 2) (frac 1 2) (frac 1 5) (frac 1 5) (frac 1 1) (frac 1 2))
             (frac 1280 1) (frac 960 1) (frac 3 4) default_iouThreshold default_modelInputSize)
   <= length (parseYOLOv8Output
             (personRecord (frac 1 2) (frac 1 2) (frac 1 5) (frac 1 5) (frac 1 1) (frac 1 2))
             (frac 1280 1) (frac 960 1) (frac 1 4) default_iouThreshold default_modelInputSize))%nat.
Proof. apply threshold_monotonicity. reflexivity. Defined.

(** C5. NMS idempotence: running [nonMaxSuppression] again on the boxes and
    confidences it selected, with the same IOU threshold, selects the same
    boxes and confidences in the same order.  Confidences are numbers that
    compare ([NaN] is none). *)
Theorem nonMaxSuppression_idempotent (boxes : list (Box xq)) (confidences : list xq)
    (iouThreshold : xq) :
  length boxes = length confidences ->
  Forall (fun conf => conf <> XNaN) confidences ->
  let selected := nonMaxSuppression boxes confidences iouThreshold in
  let again := nonMaxSuppression (selectedBox <$> selected)
                                 (selectedConfidence <$> selected) iouThreshold in
  selectedBox <$> again = selectedBox <$> selected /\
  selectedConfidence <$> again = selectedConfidence <$> selected.
Proof.
  intros Hlen Hconf selected again.
  assert (valueOf <$> again = valueOf <$> selected) as Hsame.
  { unfold again. rewrite nonMaxSuppression_values by (by rewrite !length_fmap).
    replace (zip (selectedBox <$> selected) (selectedConfidence <$> selected))
      with (valueOf <$> selected) by (by rewrite zip_fmap).
    unfold selected. rewrite nonMaxSuppression_values by done.
    set (sorted := isort_by worseV (zip boxes confidences)).
    assert (Forall hasConfidence (zip boxes confidences)) as Hzip.
    { apply Forall_forall. intros [b c] Hbc.
      apply elem_of_zip_r in Hbc.
      by apply (proj1 (Forall_forall _ _) Hconf). }
    assert (descending worseV sorted) as Hsorted
      by (apply (isort_by_descending worseV hasConfidence);
          [apply worseV_asym|apply worseV_trans|done]).
    rewrite (isort_by_descending_id worseV).
    - apply pick_idempotent.
    - eapply descending_sublist; [apply pick_sublist|done]. }
  split.
  - replace selectedBox with (fst ∘ valueOf) by done.
    by rewrite !list_fmap_compose, Hsame.
  - replace selectedConfidence with (snd ∘ valueOf) by done.
    by rewrite !list_fmap_compose, Hsame.
Qed.

(** Two boxes that overlap heavily and one apart from them. *)
Definition sampleBoxes : list (Box xq) :=
  [ (frac 5 1, frac 5 1, frac 95 1, frac 95 1);
    (frac 0 1, frac 0 1, frac 100 1, frac 100 1);
    (frac 200 1, frac 200 1, frac 250 1, frac 250 1) ].
Definition sampleConfidences : list xq := [frac 3 5; frac 9 10; frac 7 10].

Lemma nonMaxSuppression_idempotent_witness :
  let selected := nonMaxSuppression sampleBoxes sampleConfidences default_iouThreshold in
  let again := nonMaxSuppression (selectedBox <$> selected)
                                 (selectedConfidence <$> selected) default_iouThreshold in
  selectedBox <$> again = selectedBox <$> selected /\
  selectedConfidence <$> again = selectedConfidence <$> selected.
Proof.
  apply nonMaxSuppression_idempotent; [reflexivity|].
  repeat constructor; discriminate.
Defined.




(** C7, as stated, fails: for two boxes of area 0 the quotient is [0 / 0],
    and [calculateIOU] returns [NaN], not 0; in binary64 too. *)
Lemma calculateIOU_counterexample :
  let flat := (frac 0 1, frac 0 1, frac 0 1, frac 0 1) in
  calculateIOU flat flat = XNaN /\
  xq_strictEq (calculateIOU flat flat) (frac 0 1) = false /\
  calculateIOU (H := binary64) (0, 0, 0, 0)%float (0, 0, 0, 0)%float = PrimFloat.nan.
Proof. evaluate. Qed.

(** C7, amended.  [calculateIOU] is total and has no guard: on all boxes with
    finite coordinates it returns the quotient of the intersection area,
    [max(0, min(x2) - max(x1)) * max(0, min(y2) - max(y1))], by
    [area1 + area2 - intersection], computed as JavaScript divides, and when
    both boxes have area 0 the quotient is [0 / 0 = NaN], which no comparison
    [iou > iouThreshold] accepts. *)
Theorem calculateIOU_unguarded (x1 y1 x2 y2 X1 Y1 X2 Y2 : Qc) :
  let box1 := finiteBox x1 y1 x2 y2 in
  let box2 := finiteBox X1 Y1 X2 Y2 in
  let interArea := intersectionOf x1 y1 x2 y2 X1 Y1 X2 Y2 in
  let box1Area := areaOf x1 y1 x2 y2 in
  let box2Area := areaOf X1 Y1 X2 Y2 in
  calculateIOU box1 box2 =
    xq_div (Fin interArea) (Fin (box1Area + box2Area - interArea)) /\
  (box1Area = 0%Qc -> box2Area = 0%Qc ->
   calculateIOU box1 box2 = XNaN /\
   forall iouThreshold, xq_lt iouThreshold (calculateIOU box1 box2) = false).
Proof.
  intros box1 box2 interArea box1Area box2Area.
  split; [apply calculateIOU_finite|].
  intros H1 H2.
  assert (calculateIOU box1 box2 = XNaN) as ->; [|split; [done|apply xq_lt_NaN_r]].
  unfold box1, box2. rewrite calculateIOU_finite.
  fold interArea box1Area box2Area.
  assert (interArea = 0%Qc) as -> by (by apply intersection_of_flat_box).
  rewrite H1, H2. reflexivity.
Qed.

(** C8.  The scorer takes the first argmax of [class_confs], multiplies its
    score by [obj_conf] and tests the product strictly against the threshold
    and the class against 'person' ([scorer_semantics]); but [class_confs] is
    what is left of 84 values behind five fields, 79 scores and not the 80
    that the comments of the source and the specification name
    ([class_confs_length]).  On the record below, laid out as the source
    documents it ([x, y, w, h, obj_conf, class_conf_0 .. class_conf_79]) with
    [class_conf_0 = 0.5] and [class_conf_79 = 1], the argmax over the 80
    scores is class 79; the source reads 79 scores, takes class 0 with
    confidence 0.5 and returns a 'person'; in binary64 too. *)
Theorem scorer_misses_last_class :
  let tensor := [frac 1 2; frac 1 2; frac 1 4; frac 1 4; frac 1 1; frac 1 2]
                  ++ replicate 78 (frac 0 1) ++ [frac 1 1] in
  let tensor64 := ([0.5; 0.5; 0.25; 0.25; 1; 0.5] ++ replicate 78 0 ++ [1])%float in
  length CLASS_LABELS = 80%nat /\
  length tensor = 85%nat /\
  tensor !! (5 + 79)%nat = Some (frac 1 1) /\
  length (class_confs tensor 0) = 79%nat /\
  classIdOf tensor 0 = 0 /\
  parseYOLOv8Output tensor (frac 1280 1) (frac 960 1)
      default_confidenceThreshold default_iouThreshold default_modelInputSize
  = [ {| box := (frac 480 1, frac 360 1, frac 800 1, frac 7683 16);
         confidence := frac 1 2; classId := 0 |} ] /\
  parseYOLOv8Output (H := binary64) tensor64 1280%float 960%float
      default_confidenceThreshold64 default_iouThreshold64 default_modelInputSize64
  = [ {| box := (480, 360, 800, 480.1875)%float;
         confidence := 0.5%float; classId := 0 |} ].
Proof. evaluate. Qed.

(** C9. Every detection returned by [parseYOLOv8Output] has class 0, the
    index of 'person' in [CLASS_LABELS]: the class of interest is fixed in
    the function.  This holds in every number system, binary64 included. *)
Theorem detections_are_person {N : Type} `{JSNumber N} (data : list N)
    (originalWidth originalHeight : N)
    (confidenceThreshold iouThreshold modelInputSize : N) :
  CLASS_LABELS !! 0%nat = Some "person"%string /\
  Forall (fun d => classId d = 0)
         (parseYOLOv8Output data originalWidth originalHeight
                            confidenceThreshold iouThreshold modelInputSize).
Proof.
  split; [done|]. unfold parseYOLOv8Output.
  destruct (candidates_person data originalWidth originalHeight
              confidenceThreshold modelInputSize) as (Hb & Hc & Hzero).
  cbv zeta in *. rewrite nonMaxSuppression_pick by done.
  rewrite <- list_fmap_compose. apply Forall_fmap, Forall_forall.
  intros idx Hidx. cbn [compose classId selectedAt originalIndex].
  eapply elem_of_sublist in Hidx; [|apply pick_sublist].
  apply indices_in_range in Hidx. rewrite <- Hc in Hidx.
  apply lookup_lt_is_Some in Hidx as [k Hk]. rewrite Hk. cbn.
  apply (proj1 (Forall_forall _ _) Hzero). by eapply list_elem_of_lookup_2.
Qed.

(** C10, as stated, fails: a tensor of 6 values is shorter than one record,
    yet its values are decoded as a record with one class score, and the call
    returns a detection; in binary64 too. *)
Lemma short_tensor_counterexample :
  let tensor := [frac 1 2; frac 1 2; frac 1 4; frac 1 4; frac 1 1; frac 1 1] in
  let tensor64 := [0.5; 0.5; 0.25; 0.25; 1; 1]%float in
  (length tensor <? 84)%nat = true /\
  parseYOLOv8Output tensor (frac 1280 1) (frac 960 1)
      default_confidenceThreshold default_iouThreshold default_modelInputSize
  = [ {| box := (frac 480 1, frac 360 1, frac 800 1, frac 7683 16);
         confidence := frac 1 1; classId := 0 |} ] /\
  parseYOLOv8Output (H := binary64) tensor64 1280%float 960%float
      default_confidenceThreshold64 default_iouThreshold64 default_modelInputSize64
  = [ {| box := (480, 360, 800, 480.1875)%float;
         confidence := 1%float; classId := 0 |} ].
Proof. evaluate. Qed.

(** C10, amended: a tensor of fewer than 6 values holds no class score, and
    [parseYOLOv8Output] returns the empty list for it. *)
Theorem short_tensor_empty (data : list xq) (originalWidth originalHeight : xq)
    (confidenceThreshold iouThreshold modelInputSize : xq) :
  (length data < 6)%nat ->
  parseYOLOv8Output data originalWidth originalHeight
                    confidenceThreshold iouThreshold modelInputSize = [].
Proof.
  intros Hlen. unfold parseYOLOv8Output.
  destruct (collectCandidates_spec data originalWidth originalHeight
              confidenceThreshold modelInputSize) as (Hb & _).
  cbv zeta in Hb. rewrite Hb.
  assert (keptRecords data confidenceThreshold = []) as ->; [|done].
  unfold keptRecords. apply filter_none, Forall_forall. intros i Hi Hkept.
  apply elem_of_seq in Hi. rewrite Nat.add_0_l, recordCount_lt in Hi.
  rewrite retained_no_scores in Hkept; [done|].
  unfold class_confs, predictionSlice, slice.
  apply length_zero_iff_nil. rewrite length_drop, length_take, length_drop. lia.
Qed.

Lemma short_tensor_empty_witness :
  parseYOLOv8Output [frac 1 2; frac 1 2; frac 1 4; frac 1 4; frac 1 1]
                    (frac 1280 1) (frac 960 1)
                    default_confidenceThreshold default_iouThreshold default_modelInputSize = [].
Proof. apply short_tensor_empty. simpl. lia. Defined.

(** * Further properties of the code *)

(** ** Greedy selection: what is taken and what is left *)

Section GreedyFacts.
Context {A : Type}.
Variable hit : A -> A -> bool.

(** Nothing taken is hit by what was chosen before, nor by an element taken
    earlier. *)
Lemma pick_unhit (l chosen : list A) :
  Forall (fun k => existsb (hit k) chosen = false) (pick hit l chosen) /\
  StronglySorted (fun s k => hit k s = false) (pick hit l chosen).
Proof.
  revert chosen. induction l as [|x l IH]; intros chosen; cbn [pick].
  - split; constructor.
  - destruct (existsb (hit x) chosen) eqn:Hx; [apply IH|].
    destruct (IH (chosen ++ [x])) as [Hall Hsorted].
    assert (Forall (fun k => existsb (hit k) chosen = false /\ hit k x = false)
                   (pick hit l (chosen ++ [x]))) as Hboth.
    { eapply Forall_impl; [exact Hall|]. intros k Hk. cbv beta in Hk.
      rewrite existsb_app in Hk. apply orb_false_iff in Hk as [Hc Hkx].
      cbn in Hkx. by rewrite orb_false_r in Hkx. }
    split.
    + constructor; [done|]. eapply Forall_impl; [exact Hboth|]. by intros k [? _].
    + constructor; [done|]. eapply Forall_impl; [exact Hboth|]. by intros k [_ ?].
Qed.

(** Every element is taken or hit by something chosen or taken. *)
Lemma pick_complete (l chosen : list A) (k : A) :
  k ∈ l -> k ∈ pick hit l chosen \/ existsb (hit k) (chosen ++ pick hit l chosen) = true.
Proof.
  revert chosen. induction l as [|x l IH]; intros chosen Hk; cbn [pick].
  - by apply elem_of_nil in Hk.
  - apply elem_of_cons in Hk as [->|Hk].
    + destruct (existsb (hit x) chosen) eqn:Hx.
      * right. by rewrite existsb_app, Hx.
      * left. apply list_elem_of_here.
    + destruct (existsb (hit x) chosen) eqn:Hx; [by apply IH|].
      destruct (IH (chosen ++ [x]) Hk) as [Hin|Hhit].
      * left. by apply list_elem_of_further.
      * right. by rewrite <- app_assoc in Hhit.
Qed.

(** Where no element hits another one, everything is taken. *)
Lemma pick_all (l chosen : list A) :
  NoDup l ->
  (forall k s, k ∈ l -> s ∈ chosen ++ l -> k <> s -> hit k s = false) ->
  (forall k, k ∈ l -> k ∉ chosen) ->
  pick hit l chosen = l.
Proof.
  revert chosen. induction l as [|x l IH]; intros chosen Hnodup Hfree Hnew; cbn [pick]; [done|].
  apply NoDup_cons in Hnodup as [Hx Hnodup].
  assert (existsb (hit x) chosen = false) as ->.
  { destruct (existsb (hit x) chosen) eqn:Hex; [|done].
    apply existsb_exists in Hex as (s & Hs & Hhit). apply list_elem_of_In in Hs.
    rewrite Hfree in Hhit; [done|apply list_elem_of_here|by apply elem_of_app; left|].
    intros <-. by apply (Hnew x); [apply list_elem_of_here|]. }
  f_equal. apply IH; [done| |].
  - intros k s Hk Hs Hne. apply Hfree; [by apply list_elem_of_further| |done].
    rewrite <- app_assoc in Hs. done.
  - intros k Hk Hin. apply elem_of_app in Hin as [Hin|Hin].
    + by apply (Hnew k); [apply list_elem_of_further|].
    + apply list_elem_of_singleton in Hin as ->. done.
Qed.
End GreedyFacts.

Lemma strongly_sorted_fmap {A B : Type} (f : A -> B) (R : A -> A -> Prop)
    (S : B -> B -> Prop) (l : list A) :
  (forall x y, R x y -> S (f x) (f y)) ->
  StronglySorted R l -> StronglySorted S (f <$> l).
Proof.
  intros HRS. induction 1 as [|x l Hl IH Hx]; csimpl; constructor; [done|].
  apply Forall_fmap. eapply Forall_impl; [exact Hx|]. intros y Hy. by apply HRS.
Qed.

(** ** What nonMaxSuppression selects *)

Section Selection.
Context {N : Type} `{JSNumber N}.
Local Open Scope js_scope.
Variables (boxes : list (Box N)) (confidences : list N) (iouThreshold : N).
Hypothesis parallel : length boxes = length confidences.

Lemma selected_indices :
  originalIndex <$> nonMaxSuppression boxes confidences iouThreshold =
    pick (hitAt boxes iouThreshold) (sortedIndices confidences) [].
Proof.
  rewrite nonMaxSuppression_pick by done. rewrite <- list_fmap_compose.
  apply list_fmap_id.
Qed.

Lemma sortedIndices_NoDup : NoDup (sortedIndices confidences).
Proof. rewrite sortedIndices_perm. apply NoDup_seq. Qed.

(** The selected elements are entries of the two arrays, each taken once:
    the original indices are distinct and in range, and every element holds
    the box and the confidence found at its original index. *)
Theorem selected_are_entries :
  let selected := nonMaxSuppression boxes confidences iouThreshold in
  NoDup (originalIndex <$> selected) /\
  Forall (fun s => boxes !! originalIndex s = Some (selectedBox s) /\
                   confidences !! originalIndex s = Some (selectedConfidence s))
         selected.
Proof.
  cbv zeta. split.
  - rewrite selected_indices.
    eapply sublist_NoDup; [apply sortedIndices_NoDup|apply pick_sublist].
  - rewrite nonMaxSuppression_pick by done. apply Forall_fmap, Forall_forall.
    intros idx Hidx. eapply elem_of_sublist in Hidx; [|apply pick_sublist].
    apply indices_in_range in Hidx.
    cbn [compose selectedAt selectedBox selectedConfidence originalIndex].
    unfold boxAt, numberAt.
    destruct (lookup_lt_is_Some_2 confidences idx Hidx) as [c ->].
    rewrite <- parallel in Hidx.
    destruct (lookup_lt_is_Some_2 boxes idx Hidx) as [b ->]. done.
Qed.

(** No selected box overlaps a box selected before it by more than the
    threshold. *)
Theorem selected_are_apart :
  StronglySorted
    (fun s k => (calculateIOU (selectedBox s) (selectedBox k) >? iouThreshold) = false)
    (nonMaxSuppression boxes confidences iouThreshold).
Proof.
  rewrite nonMaxSuppression_pick by done.
  eapply strongly_sorted_fmap; [|apply (pick_unhit (hitAt boxes iouThreshold))].
  intros s k Hsk. exact Hsk.
Qed.

(** A candidate that is not selected overlaps a selected box by more than
    the threshold. *)
Theorem dropped_are_overlapped (idx : nat) (b : Box N) :
  boxes !! idx = Some b ->
  idx ∈ originalIndex <$> nonMaxSuppression boxes confidences iouThreshold \/
  Exists (fun s => (calculateIOU (selectedBox s) b >? iouThreshold) = true)
         (nonMaxSuppression boxes confidences iouThreshold).
Proof.
  intros Hb.
  assert (idx ∈ sortedIndices confidences) as Hidx.
  { rewrite sortedIndices_perm, elem_of_seq. apply lookup_lt_Some in Hb. lia. }
  destruct (pick_complete (hitAt boxes iouThreshold) _ [] idx Hidx) as [Hin|Hhit].
  - left. by rewrite selected_indices.
  - right. rewrite nonMaxSuppression_pick by done.
    apply Exists_fmap. cbn [app] in Hhit.
    apply existsb_exists in Hhit as (s & Hs & Hhit). apply list_elem_of_In in Hs.
    apply Exists_exists. exists s. split; [done|].
    unfold hitAt, boxAt in Hhit. rewrite Hb in Hhit.
    cbn [compose selectedAt selectedBox]. exact Hhit.
Qed.

(** From candidates that exist, at least one and at most all are selected. *)
Theorem selected_count :
  boxes <> [] ->
  (0 < length (nonMaxSuppression boxes confidences iouThreshold) <= length boxes)%nat.
Proof.
  intros Hne. rewrite nonMaxSuppression_pick by done.
  rewrite length_fmap. split.
  - destruct (sortedIndices confidences) as [|idx later] eqn:Hsorted.
    + pose proof sortedIndices_perm confidences as Hperm.
      rewrite Hsorted in Hperm. apply Permutation_length in Hperm.
      rewrite length_seq, <- parallel in Hperm. destruct boxes; [done|discriminate].
    + cbn. lia.
  - etrans; [apply sublist_length, pick_sublist|].
    rewrite (Permutation_length (sortedIndices_perm confidences)), length_seq. lia.
Qed.

(** Where no two different candidates overlap by more than the threshold,
    every candidate is selected. *)
Theorem apart_are_all_selected :
  (forall i j bi bj, i <> j -> boxes !! i = Some bi -> boxes !! j = Some bj ->
     (calculateIOU bi bj >? iouThreshold) = false) ->
  originalIndex <$> nonMaxSuppression boxes confidences iouThreshold =
    sortedIndices confidences /\
  length (nonMaxSuppression boxes confidences iouThreshold) = length boxes.
Proof.
  intros Hapart.
  assert (originalIndex <$> nonMaxSuppression boxes confidences iouThreshold =
            sortedIndices confidences) as Hall.
  { rewrite selected_indices. apply pick_all.
    - apply sortedIndices_NoDup.
    - intros k s Hk Hs Hne. cbn [app] in Hs.
      apply indices_in_range in Hk. apply indices_in_range in Hs.
      rewrite <- parallel in Hk, Hs.
      destruct (lookup_lt_is_Some_2 boxes k Hk) as [bk Hbk].
      destruct (lookup_lt_is_Some_2 boxes s Hs) as [bs Hbs].
      unfold hitAt, boxAt. rewrite Hbk, Hbs. cbn.
      by apply (Hapart s k).
    - intros k _ Hin. by apply elem_of_nil in Hin. }
  split; [done|].
  apply (f_equal length) in Hall. rewrite length_fmap in Hall. rewrite Hall.
  rewrite (Permutation_length (sortedIndices_perm confidences)), length_seq. done.
Qed.
End Selection.

Lemma strongly_sorted_fmap_inv {A B : Type} (f : A -> B) (S : B -> B -> Prop)
    (l : list A) :
  StronglySorted S (f <$> l) -> StronglySorted (fun x y => S (f x) (f y)) l.
Proof.
  induction l as [|x l IH]; csimpl; intros Hs; [constructor|].
  apply StronglySorted_inv in Hs as [Hl Hx]. constructor; [by apply IH|].
  apply (proj1 (Forall_fmap f (S (f x)) l)) in Hx.
  eapply Forall_impl; [exact Hx|]. intros y Hy. exact Hy.
Qed.

(** ** The order of the selected candidates *)

Section SelectionOrder.
Variables (boxes : list (Box xq)) (confidences : list xq) (iouThreshold : xq).
Hypothesis parallel : length boxes = length confidences.
Hypothesis numbers : Forall (fun conf => conf <> XNaN) confidences.

Lemma candidates_have_confidence : Forall hasConfidence (zip boxes confidences).
Proof.
  apply Forall_forall. intros [b c] Hbc. apply elem_of_zip_r in Hbc.
  unfold hasConfidence. cbn [snd].
  by apply (proj1 (Forall_forall _ _) numbers).
Qed.

Lemma sorted_candidates_descending :
  descending worseV (isort_by worseV (zip boxes confidences)).
Proof.
  apply (isort_by_descending worseV hasConfidence);
    [apply worseV_asym|apply worseV_trans|apply candidates_have_confidence].
Qed.

Lemma nonMaxSuppression_descending :
  StronglySorted
    (fun s k => xq_lt (selectedConfidence s) (selectedConfidence k) = false)
    (nonMaxSuppression boxes confidences iouThreshold).
Proof.
  apply (strongly_sorted_fmap_inv (valueOf)
           (fun x y : Box xq * xq => xq_lt x.2 y.2 = false)).
  rewrite nonMaxSuppression_values by done.
  eapply descending_sublist; [apply pick_sublist|apply sorted_candidates_descending].
Qed.

(** The selected candidates come in descending order of confidence: none has
    a smaller confidence than one behind it. *)
Theorem selected_are_descending :
  StronglySorted
    (fun s k => xq_lt (selectedConfidence s) (selectedConfidence k) = false)
    (nonMaxSuppression boxes confidences iouThreshold).
Proof. exact nonMaxSuppression_descending. Qed.

(** The first selected candidate has the greatest confidence of all
    candidates. *)
Theorem best_is_selected_first :
  boxes <> [] ->
  exists s rest,
    nonMaxSuppression boxes confidences iouThreshold = s :: rest /\
    Forall (fun conf => xq_lt (selectedConfidence s) conf = false) confidences.
Proof.
  intros Hne.
  pose proof (nonMaxSuppression_values iouThreshold boxes confidences parallel) as Hvalues.
  pose proof sorted_candidates_descending as Hsorted.
  pose proof (isort_by_perm worseV (zip boxes confidences)) as Hperm.
  destruct (isort_by worseV (zip boxes confidences)) as [|x sorted] eqn:Hx.
  { apply Permutation_length in Hperm. rewrite length_zip, <- parallel in Hperm.
    destruct boxes; [done|]. cbn in Hperm. lia. }
  cbn [pick existsb] in Hvalues.
  destruct (nonMaxSuppression boxes confidences iouThreshold) as [|s rest]; [done|].
  injection Hvalues as Hs _. exists s, rest. split; [done|].
  apply StronglySorted_inv in Hsorted as [_ Hhead].
  apply Forall_forall. intros conf Hconf.
  apply list_elem_of_lookup_1 in Hconf as [i Hi].
  assert (i < length boxes)%nat as Hlt by (rewrite parallel; by eapply lookup_lt_Some).
  destruct (lookup_lt_is_Some_2 boxes i Hlt) as [b Hb].
  assert ((b, conf) ∈ x :: sorted) as Hin.
  { rewrite Hperm. eapply list_elem_of_lookup_2. apply lookup_zip_with_Some.
    by exists b, conf. }
  replace (selectedConfidence s) with x.2 by (by rewrite <- Hs).
  apply elem_of_cons in Hin as [<-|Hin]; [apply xq_lt_irrefl|].
  by apply (proj1 (Forall_forall _ _) Hhead (b, conf)).
Qed.
End SelectionOrder.

(** ** More on calculateIOU *)

Lemma Math_max_comm (a b : xq) : Math_max [a; b] = Math_max [b; a].
Proof.
  unfold Math_max. cbn. unfold xq_max2.
  destruct a as [p| | |], b as [q| | |]; try reflexivity.
  cbn. qc_compare; try reflexivity; try (exfalso; lra).
  all: f_equal; apply Qc_is_canon; (done || by symmetry).
Qed.

Lemma Math_min_comm (a b : xq) : Math_min [a; b] = Math_min [b; a].
Proof.
  unfold Math_min. cbn. unfold xq_min2.
  destruct a as [p| | |], b as [q| | |]; try reflexivity.
  cbn. qc_compare; try reflexivity; try (exfalso; lra).
  all: f_equal; apply Qc_is_canon; (done || by symmetry).
Qed.

Lemma xq_add_comm (a b : xq) : xq_add a b = xq_add b a.
Proof.
  destruct a as [p| | |], b as [q| | |]; try reflexivity.
  cbn. f_equal. ring.
Qed.

(** [calculateIOU] does not depend on the order of the two boxes, whatever
    their coordinates are. *)
Theorem calculateIOU_symmetric (box1 box2 : Box xq) :
  calculateIOU box1 box2 = calculateIOU box2 box1.
Proof.
  destruct box1 as [[[x1 y1] x2] y2], box2 as [[[X1 Y1] X2] Y2].
  unfold calculateIOU.
  rewrite (Math_max_comm X1 x1), (Math_max_comm Y1 y1).
  rewrite (Math_min_comm X2 x2), (Math_min_comm Y2 y2).
  cbn [add xq_number].
  by rewrite (xq_add_comm (mul (sub X2 X1) (sub Y2 Y1))).
Qed.

(** The tests of the hypotheses below: a box with [x1 <= x2] and [y1 <= y2],
    and its area. *)
Definition wellFormed (x1 y1 x2 y2 : Qc) : bool :=
  bool_decide (x1 <= x2)%Qc && bool_decide (y1 <= y2)%Qc.

(** ** calculateIOU under the laws *)

Section Overlap.
Context {N : Type} `{JSNumber N} `{!IEEEOrder N} `{!IEEERounding N} `{!IEEEOverlap N}.
Local Open Scope js_scope.

Lemma strictEq_sym (a b : N) : strictEq a b = true -> strictEq b a = true.
Proof. rewrite !strictEq_leq. intros Hab. split_and_true. by apply andb_true_iff. Qed.

Lemma strictEq_trans (a b c : N) :
  strictEq a b = true -> strictEq b c = true -> strictEq a c = true.
Proof.
  intros Hab Hbc. apply leq_antisym.
  - eapply leq_trans; by apply strictEq_leq_l.
  - eapply leq_trans; by apply strictEq_leq_r.
Qed.

Lemma isFinite_strictEq (a b : N) :
  strictEq a b = true -> isFinite b = true -> isFinite a = true.
Proof.
  intros Hab Hb.
  apply (isFinite_between b a b); [done|by apply strictEq_leq_r|by apply strictEq_leq_l|done].
Qed.

Lemma neg_Infinity_isNumber : isNumber (neg Infinity : N) = true.
Proof.
  pose proof (zero_isFinite (N := N)) as Hz. unfold isFinite in Hz.
  apply andb_true_iff in Hz as [Hlow _]. by destruct (lt_isNumber _ _ Hlow).
Qed.

Lemma Infinity_isNumber : isNumber (Infinity : N) = true.
Proof.
  pose proof (zero_isFinite (N := N)) as Hz. unfold isFinite in Hz.
  apply andb_true_iff in Hz as [_ Hhigh]. by destruct (lt_isNumber _ _ Hhigh).
Qed.

(** [Math.max(a, b)] is an upper bound of the two numbers and is one of
    them. *)
Lemma Math_max_pair (a b : N) :
  isNumber a = true -> isNumber b = true ->
  leq a (Math_max [a; b]) = true /\ leq b (Math_max [a; b]) = true /\
  (strictEq (Math_max [a; b]) a = true \/ strictEq (Math_max [a; b]) b = true).
Proof.
  intros Ha Hb. unfold Math_max. cbn [fold_left].
  set (m0 := max2 (neg Infinity) a).
  pose proof (max2_upper (neg Infinity) a neg_Infinity_isNumber Ha) as Hup0.
  fold m0 in Hup0. apply andb_true_iff in Hup0 as [_ Ham0].
  assert (strictEq m0 a = true) as Hm0.
  { pose proof (max2_select (neg Infinity) a neg_Infinity_isNumber Ha) as Hsel.
    fold m0 in Hsel. apply orb_true_iff in Hsel as [Hinf|?]; [|done].
    apply leq_antisym; [|done].
    eapply leq_trans; [by apply strictEq_leq_l|by apply neg_Infinity_least]. }
  destruct (leq_isNumber _ _ Ham0) as [_ Hm0num].
  pose proof (max2_upper m0 b Hm0num Hb) as Hup. apply andb_true_iff in Hup as [Hm0m Hbm].
  pose proof (max2_select m0 b Hm0num Hb) as Hsel.
  repeat split; [by apply (leq_trans _ m0)|done|].
  apply orb_true_iff in Hsel as [Hsel|Hsel]; [left|by right].
  by eapply strictEq_trans.
Qed.

Lemma Math_min_pair (a b : N) :
  isNumber a = true -> isNumber b = true ->
  leq (Math_min [a; b]) a = true /\ leq (Math_min [a; b]) b = true /\
  (strictEq (Math_min [a; b]) a = true \/ strictEq (Math_min [a; b]) b = true).
Proof.
  intros Ha Hb. unfold Math_min. cbn [fold_left].
  set (m0 := min2 Infinity a).
  pose proof (min2_lower Infinity a Infinity_isNumber Ha) as Hlow0.
  fold m0 in Hlow0. apply andb_true_iff in Hlow0 as [_ Hm0a].
  assert (strictEq m0 a = true) as Hm0.
  { pose proof (min2_select Infinity a Infinity_isNumber Ha) as Hsel.
    fold m0 in Hsel. apply orb_true_iff in Hsel as [Hinf|?]; [|done].
    apply leq_antisym; [done|].
    eapply leq_trans; [by apply Infinity_greatest|by apply strictEq_leq_r]. }
  destruct (leq_isNumber _ _ Hm0a) as [Hm0num _].
  pose proof (min2_lower m0 b Hm0num Hb) as Hlow.
  apply andb_true_iff in Hlow as [Hmm0 Hmb].
  pose proof (min2_select m0 b Hm0num Hb) as Hsel.
  repeat split; [by apply (leq_trans _ m0)|done|].
  apply orb_true_iff in Hsel as [Hsel|Hsel]; [left|by right].
  by eapply strictEq_trans.
Qed.

Lemma sub_nonneg (a b : N) :
  isFinite a = true -> isFinite b = true -> leq a b = true -> leq zero (b - a) = true.
Proof.
  intros Ha Hb Hab.
  eapply leq_trans; [by apply strictEq_leq_r, sub_self|].
  apply sub_monotone; try done.
  - by apply leq_refl, isFinite_isNumber.
  - by apply sub_finite.
  - by apply sub_finite.
Qed.

Lemma sub_nonpos (a b : N) :
  isFinite a = true -> isFinite b = true -> leq a b = true -> leq (a - b) zero = true.
Proof.
  intros Ha Hb Hab.
  eapply leq_trans; [|by apply strictEq_leq_l, (sub_self b)].
  apply sub_monotone; try done.
  - by apply leq_refl, isFinite_isNumber.
  - by apply sub_finite.
  - by apply sub_finite.
Qed.

(** The overlap of two intervals with finite ordered ends, as the code
    computes it: not negative and not longer than either interval. *)
Lemma overlap_length (a b A B : N) :
  isFinite a = true -> isFinite b = true -> isFinite A = true -> isFinite B = true ->
  leq a b = true -> leq A B = true ->
  let overlap := Math_max [zero; Math_min [b; B] - Math_max [a; A]] in
  leq zero overlap = true /\ leq overlap (b - a) = true /\ leq overlap (B - A) = true.
Proof.
  intros Ha Hb HA HB Hab HAB.
  pose proof (isFinite_isNumber _ Ha) as Hna. pose proof (isFinite_isNumber _ Hb) as Hnb.
  pose proof (isFinite_isNumber _ HA) as HnA. pose proof (isFinite_isNumber _ HB) as HnB.
  destruct (Math_max_pair a A Hna HnA) as (Hlo1 & Hlo2 & Hlo).
  destruct (Math_min_pair b B Hnb HnB) as (Hhi1 & Hhi2 & Hhi).
  set (lo := Math_max [a; A]) in *. set (hi := Math_min [b; B]) in *.
  assert (isFinite lo = true) as Hflo by (destruct Hlo; by eapply isFinite_strictEq).
  assert (isFinite hi = true) as Hfhi by (destruct Hhi; by eapply isFinite_strictEq).
  assert (isNumber (hi - lo) = true) as Hd by (by apply sub_finite).
  destruct (Math_max_pair zero (hi - lo) zero_isNumber Hd) as (Hz & Hdo & Hsel).
  cbv zeta. set (overlap := Math_max [zero; hi - lo]) in *.
  assert (leq (hi - lo) (b - a) = true) as Hd1
    by (apply sub_monotone; try done; by apply sub_finite).
  assert (leq (hi - lo) (B - A) = true) as Hd2
    by (apply sub_monotone; try done; by apply sub_finite).
  repeat split; [done| |].
  - destruct Hsel as [Hsel|Hsel].
    + eapply leq_trans; [by apply strictEq_leq_l|]. by apply sub_nonneg.
    + eapply leq_trans; [by apply strictEq_leq_l|done].
  - destruct Hsel as [Hsel|Hsel].
    + eapply leq_trans; [by apply strictEq_leq_l|]. by apply sub_nonneg.
    + eapply leq_trans; [by apply strictEq_leq_l|done].
Qed.

(** A box with finite corners, [x1 <= x2] and [y1 <= y2]. *)
Definition properBox (b : Box N) : bool :=
  let '(x1, y1, x2, y2) := b in
  isFinite x1 && isFinite y1 && isFinite x2 && isFinite y2 && leq x1 x2 && leq y1 y2.

(** A box with finite corners. *)
Definition finiteCorners (b : Box N) : bool :=
  let '(x1, y1, x2, y2) := b in
  isFinite x1 && isFinite y1 && isFinite x2 && isFinite y2.
End Overlap.

(** For two boxes with finite ordered corners, [calculateIOU] returns NaN
    or a number within [0, 1], in every number system that obeys the laws:
    never a negative number, never a number above 1, never an infinity. *)
Theorem calculateIOU_in_unit_range {N : Type} `{JSNumber N}
    `{!IEEEOrder N} `{!IEEERounding N} `{!IEEEOverlap N} (box1 box2 : Box N) :
  properBox box1 = true -> properBox box2 = true ->
  isNumber (calculateIOU box1 box2) = true ->
  unitRange (calculateIOU box1 box2) = true.
Proof.
  destruct box1 as [[[x1 y1] x2] y2], box2 as [[[X1 Y1] X2] Y2].
  unfold properBox, calculateIOU. intros H1 H2 Hnum. split_and_true.
  destruct (overlap_length x1 x2 X1 X2) as (Hw0 & Hw1 & Hw2); try done.
  destruct (overlap_length y1 y2 Y1 Y2) as (Hh0 & Hh1 & Hh2); try done.
  cbv zeta in *.
  set (iw := Math_max [zero; sub (Math_min [x2; X2]) (Math_max [x1; X1])]) in *.
  set (ih := Math_max [zero; sub (Math_min [y2; Y2]) (Math_max [y1; Y1])]) in *.
  set (a1 := mul (sub x2 x1) (sub y2 y1)) in *.
  set (a2 := mul (sub X2 X1) (sub Y2 Y1)) in *.
  destruct (div_isNumber _ _ Hnum) as [Hinter Hunion].
  destruct (sub_isNumber _ _ Hunion) as [Hsum _].
  destruct (add_isNumber _ _ Hsum) as [Ha1 Ha2].
  assert (leq zero (mul iw ih) = true) as Hi0 by (by apply mul_nonneg).
  assert (leq (mul iw ih) a1 = true) as Hi1 by (by apply mul_monotone).
  assert (leq (mul iw ih) a2 = true) as Hi2 by (by apply mul_monotone).
  apply div_unit; [done| |done].
  apply sub_twice; [done| |done].
  apply add_monotone; try done. by apply add_nonneg.
Qed.

Lemma calculateIOU_in_unit_range_witness :
  unitRange (calculateIOU (frac 0 1, frac 0 1, frac 100 1, frac 100 1)
                          (frac 5 1, frac 5 1, frac 95 1, frac 95 1)) = true.
Proof. apply calculateIOU_in_unit_range; reflexivity. Defined.

(** Boxes with finite corners that lie apart along the x axis (the first
    ends where the second begins, or before): [calculateIOU] returns 0 or NaN,
    so that neither box suppresses the other at a threshold that is not
    negative. *)
Theorem calculateIOU_apart {N : Type} `{JSNumber N}
    `{!IEEEOrder N} `{!IEEERounding N} `{!IEEEOverlap N}
    (x1 y1 x2 y2 X1 Y1 X2 Y2 iouThreshold : N) :
  finiteCorners (x1, y1, x2, y2) = true -> finiteCorners (X1, Y1, X2, Y2) = true ->
  leq x2 X1 = true ->
  lt iouThreshold zero = false ->
  let iou := calculateIOU (x1, y1, x2, y2) (X1, Y1, X2, Y2) in
  (isNumber iou = true -> strictEq iou zero = true) /\
  lt iouThreshold iou = false.
Proof.
  unfold finiteCorners. intros H1 H2 Hapart Hthr. split_and_true. cbv zeta.
  assert (isNumber (calculateIOU (x1, y1, x2, y2) (X1, Y1, X2, Y2)) = true ->
          strictEq (calculateIOU (x1, y1, x2, y2) (X1, Y1, X2, Y2)) zero = true) as Hzero.
  { unfold calculateIOU. intros Hnum.
    destruct (div_isNumber _ _ Hnum) as [Hinter _].
    apply div_zero; [|done]. apply mul_zero; [|done].
    destruct (Math_max_pair x1 X1) as (_ & Hlo & Hlosel); try by apply isFinite_isNumber.
    destruct (Math_min_pair x2 X2) as (Hhi & _ & Hhisel); try by apply isFinite_isNumber.
    set (lo := Math_max [x1; X1]) in *. set (hi := Math_min [x2; X2]) in *.
    assert (isFinite lo = true) as Hflo by (destruct Hlosel; by eapply isFinite_strictEq).
    assert (isFinite hi = true) as Hfhi by (destruct Hhisel; by eapply isFinite_strictEq).
    assert (leq hi lo = true) as Hhilo
      by (eapply leq_trans; [done|]; by eapply leq_trans).
    pose proof (sub_nonpos hi lo Hfhi Hflo Hhilo) as Hd.
    destruct (leq_isNumber _ _ Hd) as [Hdnum _].
    destruct (Math_max_pair zero (sub hi lo) zero_isNumber Hdnum) as (Hz & _ & Hsel).
    apply leq_antisym; [|done].
    destruct Hsel as [Hsel|Hsel].
    - by apply strictEq_leq_l.
    - eapply leq_trans; [by apply strictEq_leq_l|done]. }
  split; [done|].
  destruct (lt iouThreshold (calculateIOU (x1, y1, x2, y2) (X1, Y1, X2, Y2))) eqn:Hlt;
    [|done].
  destruct (lt_isNumber _ _ Hlt) as [_ Hnum].
  by rewrite (lt_strictEq_r _ _ _ (Hzero Hnum)), Hthr in Hlt.
Qed.

Lemma calculateIOU_apart_witness :
  let iou := calculateIOU (frac 0 1, frac 0 1, frac 50 1, frac 50 1)
                          (frac 200 1, frac 200 1, frac 250 1, frac 250 1) in
  (isNumber iou = true -> strictEq iou zero = true) /\
  lt default_iouThreshold iou = false.
Proof. apply calculateIOU_apart; reflexivity. Defined.

Section Self.
Context {N : Type} `{JSNumber N}.
Local Open Scope js_scope.

(** The area of a box as [calculateIOU] computes it. *)
Definition boxArea (b : Box N) : N :=
  let '(x1, y1, x2, y2) := b in (x2 - x1) * (y2 - y1).
End Self.

Section SelfFacts.
Context {N : Type} `{JSNumber N} `{!IEEEOrder N} `{!IEEERounding N} `{!IEEEOverlap N}.
Local Open Scope js_scope.

(** The overlap of an interval with itself is its length. *)
Lemma overlap_self_length (a b : N) :
  isFinite a = true -> isFinite b = true -> leq a b = true ->
  strictEq (Math_max [zero; Math_min [b; b] - Math_max [a; a]]) (b - a) = true.
Proof.
  intros Ha Hb Hab.
  destruct (overlap_length a b a b) as (_ & Hle & _); try done. cbv zeta in Hle.
  apply leq_antisym; [done|].
  pose proof (isFinite_isNumber _ Ha) as Hna. pose proof (isFinite_isNumber _ Hb) as Hnb.
  destruct (Math_max_pair a a Hna Hna) as (_ & _ & Hlo).
  destruct (Math_min_pair b b Hnb Hnb) as (_ & _ & Hhi).
  set (lo := Math_max [a; a]) in *. set (hi := Math_min [b; b]) in *.
  assert (strictEq lo a = true) as Hloa by (by destruct Hlo).
  assert (strictEq hi b = true) as Hhib by (by destruct Hhi).
  assert (isNumber (hi - lo) = true) as Hd
    by (apply sub_finite; by eapply isFinite_strictEq).
  destruct (Math_max_pair zero (hi - lo) zero_isNumber Hd) as (_ & Hup & _).
  eapply leq_trans; [|done].
  apply sub_monotone; try done.
  - by apply strictEq_leq_r.
  - by apply strictEq_leq_l.
  - by apply sub_finite.
Qed.
End SelfFacts.

(** A box with finite ordered corners whose area, as the code computes it,
    is positive and can be doubled without overflow has IOU exactly 1 with
    itself. *)
Theorem calculateIOU_self {N : Type} `{JSNumber N}
    `{!IEEEOrder N} `{!IEEERounding N} `{!IEEEOverlap N} (b : Box N) :
  properBox b = true ->
  lt zero (boxArea b) = true ->
  isFinite (add (boxArea b) (boxArea b)) = true ->
  strictEq (calculateIOU b b) one = true.
Proof.
  destruct b as [[[x1 y1] x2] y2]. unfold properBox, boxArea, calculateIOU.
  intros Hb Hpos Hfin. split_and_true.
  pose proof (overlap_self_length x1 x2 ltac:(done) ltac:(done) ltac:(done)) as Hw.
  pose proof (overlap_self_length y1 y2 ltac:(done) ltac:(done) ltac:(done)) as Hh.
  set (iw := Math_max [zero; sub (Math_min [x2; x2]) (Math_max [x1; x1])]) in *.
  set (ih := Math_max [zero; sub (Math_min [y2; y2]) (Math_max [y1; y1])]) in *.
  set (a := mul (sub x2 x1) (sub y2 y1)) in *.
  destruct (lt_isNumber _ _ Hpos) as [_ Ha].
  pose proof (lt_leq _ _ Hpos) as Ha0.
  assert (strictEq a (mul iw ih) = true) as Hinter
    by (apply mul_congruent; [by apply strictEq_sym|by apply strictEq_sym|done]).
  assert (leq a (add a a) = true) as Haa.
  { eapply leq_trans; [by apply strictEq_leq_r, add_zero_r|].
    apply add_monotone; try done.
    - by apply leq_refl.
    - destruct (leq_isNumber _ _ (strictEq_leq_l _ _ (add_zero_r a Ha))) as [? _]. done.
    - by apply isFinite_isNumber. }
  assert (isFinite a = true) as Hafin
    by (apply (isFinite_between zero a (add a a)); try done; apply zero_isFinite).
  assert (isFinite (mul iw ih) = true) as Hifin
    by (by apply (isFinite_strictEq _ a); [apply strictEq_sym|]).
  assert (strictEq (sub (add a a) a) a = true) as Htwice.
  { apply leq_antisym.
    - apply sub_twice_upper; [done|done|]. by apply leq_refl, isFinite_isNumber.
    - apply sub_twice; [done| |by apply sub_finite].
      by apply leq_refl, isFinite_isNumber. }
  assert (strictEq (sub (add a a) (mul iw ih)) a = true) as Hunion.
  { eapply strictEq_trans; [|done].
    apply leq_antisym; (apply sub_monotone; try (by apply sub_finite)).
    - by apply leq_refl, isFinite_isNumber.
    - by apply strictEq_leq_l.
    - by apply leq_refl, isFinite_isNumber.
    - by apply strictEq_leq_r. }
  set (u := sub (add a a) (mul iw ih)) in *.
  assert (lt zero u = true) as Hu0
    by (by apply (lt_leq_trans _ a); [|apply strictEq_leq_r]).
  assert (positiveFinite u = true) as Hupos.
  { unfold positiveFinite. apply andb_true_iff. split; [done|].
    pose proof (isFinite_strictEq u a Hunion Hafin) as Hufin.
    unfold isFinite in Hufin. by split_and_true. }
  assert (isNumber (div (mul iw ih) u) = true) as Hnum
    by (apply div_positive; [by apply isFinite_isNumber|done]).
  assert (leq u (mul iw ih) = true) as Hui
    by (by apply (leq_trans _ a); [apply strictEq_leq_l|apply strictEq_leq_l]).
  assert (leq (mul iw ih) u = true) as Hiu
    by (by apply (leq_trans _ a); [apply strictEq_leq_r|apply strictEq_leq_r]).
  apply leq_antisym.
  - assert (unitRange (div (mul iw ih) u) = true) as Hunit.
    { apply div_unit; [|done|done]. by apply (leq_trans _ a); [|apply strictEq_leq_l]. }
    unfold unitRange in Hunit. by split_and_true.
  - by apply div_expands.
Qed.

Lemma calculateIOU_self_witness :
  strictEq (calculateIOU (frac 0 1, frac 0 1, frac 100 1, frac 50 1)
                         (frac 0 1, frac 0 1, frac 100 1, frac 50 1)) one = true.
Proof. apply calculateIOU_self; reflexivity. Defined.

(** ** What parseYOLOv8Output returns, in every number system *)

Section Returned.
Context {N : Type} `{JSNumber N}.
Local Open Scope js_scope.
Variables (data : list N) (originalWidth originalHeight : N).
Variables (confidenceThreshold iouThreshold modelInputSize : N).

(** Every confidence the loop pushes has passed the threshold. *)
Lemma candidates_above_threshold :
  Forall (fun conf => (conf >? confidenceThreshold) = true)
         (confidences (collectCandidates data originalWidth originalHeight
                                         confidenceThreshold modelInputSize)).
Proof.
  unfold collectCandidates. apply forLoop_preserves; [|constructor].
  intros i acc Hacc. unfold loopBody.
  destruct (retained data confidenceThreshold i) eqn:Hkept; [|done].
  cbn [confidences]. apply Forall_app. split; [done|]. constructor; [|done].
  unfold retained in Hkept. by apply andb_true_iff in Hkept as [? _].
Qed.

Lemma parse_above_threshold :
  Forall (fun d => (confidence d >? confidenceThreshold) = true)
         (parseYOLOv8Output data originalWidth originalHeight
                            confidenceThreshold iouThreshold modelInputSize).
Proof.
  unfold parseYOLOv8Output.
  destruct (candidates_person data originalWidth originalHeight
              confidenceThreshold modelInputSize) as (Hb & _).
  pose proof candidates_above_threshold as Habove.
  cbv zeta in *. rewrite nonMaxSuppression_pick by done.
  rewrite <- list_fmap_compose. apply Forall_fmap, Forall_forall.
  intros idx Hidx. cbn [compose confidence selectedAt selectedConfidence].
  eapply elem_of_sublist in Hidx; [|apply pick_sublist].
  apply indices_in_range in Hidx.
  apply lookup_lt_is_Some in Hidx as [c Hc]. unfold numberAt. rewrite Hc. cbn.
  apply (proj1 (Forall_forall _ _) Habove). by eapply list_elem_of_lookup_2.
Qed.

(** Every detection returned has a confidence strictly above the confidence
    threshold. *)
Theorem detections_above_threshold :
  Forall (fun d => (confidence d >? confidenceThreshold) = true)
         (parseYOLOv8Output data originalWidth originalHeight
                            confidenceThreshold iouThreshold modelInputSize).
Proof. exact parse_above_threshold. Qed.

(** No returned box overlaps a box returned before it by more than the IOU
    threshold. *)
Theorem detections_are_apart :
  StronglySorted
    (fun d e => (calculateIOU (box d) (box e) >? iouThreshold) = false)
    (parseYOLOv8Output data originalWidth originalHeight
                       confidenceThreshold iouThreshold modelInputSize).
Proof.
  unfold parseYOLOv8Output.
  destruct (candidates_person data originalWidth originalHeight
              confidenceThreshold modelInputSize) as (Hb & _).
  cbv zeta in *. rewrite nonMaxSuppression_pick by done.
  rewrite <- list_fmap_compose.
  eapply strongly_sorted_fmap; [|apply (pick_unhit (hitAt _ iouThreshold))].
  intros s k Hsk. exact Hsk.
Qed.
End Returned.

(** ** What parseYOLOv8Output returns, in exact arithmetic *)

Section ReturnedExact.
Variables (data : list xq) (originalWidth originalHeight : xq).
Variables (confidenceThreshold iouThreshold modelInputSize : xq).

Lemma candidates_are_numbers :
  Forall (fun conf => conf <> XNaN)
         (confidences (collectCandidates data originalWidth originalHeight
                                         confidenceThreshold modelInputSize)).
Proof.
  eapply Forall_impl; [apply candidates_above_threshold|].
  intros conf Hconf. by apply xq_lt_not_NaN_r in Hconf.
Qed.

(** The detections come in descending order of confidence. *)
Theorem detections_are_descending :
  StronglySorted (fun d e => xq_lt (confidence d) (confidence e) = false)
    (parseYOLOv8Output data originalWidth originalHeight
                       confidenceThreshold iouThreshold modelInputSize).
Proof.
  unfold parseYOLOv8Output.
  destruct (candidates_parallel data originalWidth originalHeight
              confidenceThreshold modelInputSize) as (Hb & _).
  cbv zeta in *. eapply strongly_sorted_fmap;
    [|apply (nonMaxSuppression_descending _ _ iouThreshold Hb candidates_are_numbers)].
  intros s k Hsk. exact Hsk.
Qed.

(** There are no more detections than records in the tensor, counting a
    trailing partial record. *)
Theorem detections_bounded_by_records :
  (length (parseYOLOv8Output data originalWidth originalHeight
                             confidenceThreshold iouThreshold modelInputSize)
   <= (length data + 83) / 84)%nat.
Proof.
  rewrite parse_length.
  etrans; [apply sublist_length, pick_sublist|].
  rewrite length_fmap, (Permutation_length (isort_by_perm _ _)).
  unfold keptRecords. etrans; [apply length_filter|].
  by rewrite length_seq.
Qed.
End ReturnedExact.

(** Every record of the tensor has objectness 0 (the fifth value of each
    group of 84, where there is one). *)
Definition zeroObjectness (data : list xq) : bool :=
  forallb (fun i => match data !! (i * 84 + 4)%nat with
                    | Some obj_conf => xq_strictEq obj_conf (Fin 0)
                    | None => true
                    end)
          (seq 0 (length data)).

Lemma xq_mul_zero_l (c : xq) : xq_mul (Fin 0) c = Fin 0 \/ xq_mul (Fin 0) c = XNaN.
Proof.
  destruct c as [q| | |]; cbn; [left|right|right|right]; try done.
  f_equal. ring.
Qed.

(** A tensor whose records all have objectness 0 yields no detection at any
    confidence threshold that is not negative. *)
Theorem zero_objectness_yields_nothing (data : list xq)
    (originalWidth originalHeight confidenceThreshold iouThreshold modelInputSize : xq) :
  zeroObjectness data = true ->
  xq_lt confidenceThreshold (Fin 0) = false ->
  parseYOLOv8Output data originalWidth originalHeight
                    confidenceThreshold iouThreshold modelInputSize = [].
Proof.
  intros Hzero Hthr. unfold parseYOLOv8Output.
  destruct (collectCandidates_spec data originalWidth originalHeight
              confidenceThreshold modelInputSize) as (Hb & _).
  cbv zeta in Hb. rewrite Hb.
  assert (keptRecords data confidenceThreshold = []) as ->; [|done].
  unfold keptRecords. apply filter_none, Forall_forall. intros i Hi Hkept.
  apply elem_of_seq in Hi. rewrite Nat.add_0_l in Hi.
  assert (i < length data)%nat as Hlt
    by (pose proof (recordCount_le data); lia).
  apply Is_true_true in Hkept. unfold retained in Hkept.
  apply andb_true_iff in Hkept as [Hconf _].
  unfold totalConfidenceOf in Hconf.
  assert (predictionSlice data i !! 4%nat = data !! (i * 84 + 4)%nat) as Hslice.
  { unfold predictionSlice, slice, numValuesPerPrediction.
    rewrite lookup_take. rewrite decide_True by lia. by rewrite lookup_drop. }
  rewrite Hslice in Hconf.
  unfold zeroObjectness in Hzero. rewrite forallb_forall in Hzero.
  specialize (Hzero i). rewrite <- list_elem_of_In, elem_of_seq in Hzero.
  specialize (Hzero ltac:(lia)).
  set (c := toNumber (at_index (class_confs data i) (classIdOf data i))) in Hconf.
  destruct (data !! (i * 84 + 4)%nat) as [obj|].
  - apply xq_strictEq_eq in Hzero as [-> _].
    change (xq_lt confidenceThreshold (xq_mul (Fin 0) c) = true) in Hconf.
    destruct (xq_mul_zero_l c) as [Hm|Hm]; rewrite Hm in Hconf.
    + congruence.
    + by rewrite xq_lt_NaN_r in Hconf.
  - change (xq_lt confidenceThreshold (xq_mul XNaN c) = true) in Hconf.
    by rewrite xq_lt_NaN_r in Hconf.
Qed.

(** ** The callers: performInference, the frame processor and the overlay *)

Section Callers.
Context {N : Type} `{JSNumber N}.
Local Open Scope js_scope.

(** A decimal literal of the source, [n / d]: the exact quotient in exact
    arithmetic, and in binary64 the double nearest to it, which is how the
    literal is read (division rounds correctly and [n], [d] are exact). *)
Definition decimal (n d : Z) : N := ofZ n / ofZ d.

(** [interface FastTFLiteModel { run: (inputs: Float32Array[]) => Float32Array[] }] *)
Record FastTFLiteModel : Type := { run : list (list N) -> list (list N) }.

Record InferenceResult : Type := {
  detections : list (Detection N);
  count : nat
}.

(** [d => CLASS_LABELS[Math.round(d.classId)] === 'person'], on a class that
    is an integer ([Math.round] leaves integers as they are). *)
Definition isPersonDetection (d : Detection N) : bool := isPerson (classId d).

(** [performInference]: the promise is fulfilled ([Returns]) or rejected
    ([Throws]).  Without an output tensor, [parseYOLOv8Output] reads
    [data.length] of [undefined]; the [catch] block logs the [TypeError] and
    throws it again. *)
Definition performInference (model : option FastTFLiteModel) (inputBuffer : list N)
    (originalWidth originalHeight : N) : Completion InferenceResult :=
  match model with
  | None => Returns {| detections := []; count := 0 |}
  | Some model =>
      let output := run model [inputBuffer] in
      match output !! 0%nat with
      | None => Throws "TypeError"
      | Some outputTensor =>
          let detections :=
            parseYOLOv8Output outputTensor originalWidth originalHeight
                              (decimal 25 100) (decimal 45 100) (ofZ 640) in
          let personDetections := List.filter isPersonDetection detections in
          let crowdCount := length personDetections in
          Returns {| detections := personDetections; count := crowdCount |}
      end
  end.

(** The state the frame processor sets: [setCrowdCount] and
    [setLiveDetections]. *)
Record ScreenUpdate : Type := {
  crowdCount : nat;
  liveDetections : list (Detection N)
}.

(** The frame processor of [CameraScreen], from the model in [modelRef] and
    the tensor [processCameraFrame(frame)]: no update ([None]) without a
    model. *)
Definition frameProcessor (currentModel : option FastTFLiteModel)
    (inputTensor : list N) (frameWidth frameHeight : N)
    : Completion (option ScreenUpdate) :=
  match currentModel with
  | None => Returns None
  | Some currentModel =>
      let output := run currentModel [inputTensor] in
      match output !! 0%nat with
      | None => Throws "TypeError"
      | Some outputTensor =>
          let detections :=
            parseYOLOv8Output outputTensor frameWidth frameHeight
                              (decimal 4 10) (decimal 45 100) (ofZ 640) in
          let personDetections := List.filter isPersonDetection detections in
          Returns (Some {| crowdCount := length personDetections;
                           liveDetections := personDetections |})
      end
  end.

(** The detections scaled to the preview by the factors [overlayScaleX] and
    [overlayScaleY]. *)
Definition scaledLiveDetections (overlayScaleX overlayScaleY : N)
    (liveDetections : list (Detection N)) : list (Detection N) :=
  (fun det =>
     let '(x1, y1, x2, y2) := box det in
     {| box := (x1 * overlayScaleX, y1 * overlayScaleY,
                x2 * overlayScaleX, y2 * overlayScaleY);
        confidence := confidence det;
        classId := classId det |}) <$> liveDetections.

(** What [BoundingBoxOverlay] draws for a detection: the rectangle and the
    position of the label.  The text of the label and the colours are left
    out. *)
Record Drawing : Type := {
  rectX : N; rectY : N; rectWidth : N; rectHeight : N;
  textX : N; textY : N
}.

(** [label === 'person' && detection.confidence > 0.4] *)
Definition isDrawn (detection : Detection N) : bool :=
  isPerson (classId detection) && (confidence detection >? decimal 4 10).

Definition drawingOf (detection : Detection N) : Drawing :=
  let '(x1, y1, x2, y2) := box detection in
  {| rectX := x1; rectY := y1; rectWidth := x2 - x1; rectHeight := y2 - y1;
     textX := x1 + ofZ 2;
     textY := if y1 <? ofZ 15 then ofZ 15 else y1 - ofZ 2 |}.

(** [BoundingBoxOverlay]: nothing ([null]) for no detections, else one entry
    per detection, [null] for a detection that is not drawn. *)
Definition BoundingBoxOverlay (detections : list (Detection N))
    : option (list (option Drawing)) :=
  if (length detections =? 0)%nat then None
  else Some ((fun detection =>
                if isDrawn detection then Some (drawingOf detection) else None)
             <$> detections).

(** Every detection of [parseYOLOv8Output] carries class 0. *)
Lemma parse_class_zero (data : list N) (w h t iou s : N) :
  Forall (fun d => classId d = 0) (parseYOLOv8Output data w h t iou s).
Proof.
  unfold parseYOLOv8Output.
  destruct (candidates_person data w h t s) as (Hb & Hc & Hzero).
  cbv zeta in *. rewrite nonMaxSuppression_pick by done.
  rewrite <- list_fmap_compose. apply Forall_fmap, Forall_forall.
  intros idx Hidx. cbn [compose classId selectedAt originalIndex].
  eapply elem_of_sublist in Hidx; [|apply pick_sublist].
  apply indices_in_range in Hidx. rewrite <- Hc in Hidx.
  apply lookup_lt_is_Some in Hidx as [k Hk]. rewrite Hk. cbn.
  apply (proj1 (Forall_forall _ _) Hzero). by eapply list_elem_of_lookup_2.
Qed.

Lemma filter_keeps_all {A : Type} (p : A -> bool) (l : list A) :
  Forall (fun x => p x = true) l -> List.filter p l = l.
Proof.
  induction 1 as [|x l Hx _ IH]; cbn; [done|]. by rewrite Hx, IH.
Qed.

(** The filter for persons that the callers apply removes nothing. *)
Lemma person_filter_keeps_all (data : list N) (w h t iou s : N) :
  List.filter isPersonDetection (parseYOLOv8Output data w h t iou s) =
    parseYOLOv8Output data w h t iou s.
Proof.
  apply filter_keeps_all. eapply Forall_impl; [apply parse_class_zero|].
  intros d Hd. unfold isPersonDetection. by rewrite Hd.
Qed.

(** [performInference] with a model that returns an output tensor: the
    result is what [parseYOLOv8Output] returns for the first tensor with the
    thresholds 0.25 and 0.45 and the input size 640, all of it (the filter
    for persons removes nothing), and the count is its length. *)
Theorem performInference_returns_all (model : FastTFLiteModel)
    (inputBuffer outputTensor : list N) (originalWidth originalHeight : N) :
  run model [inputBuffer] !! 0%nat = Some outputTensor ->
  let parsed := parseYOLOv8Output outputTensor originalWidth originalHeight
                                  (decimal 25 100) (decimal 45 100) (ofZ 640) in
  performInference (Some model) inputBuffer originalWidth originalHeight =
    Returns {| detections := parsed; count := length parsed |}.
Proof.
  intros Hrun. unfold performInference. rewrite Hrun. cbv zeta.
  by rewrite person_filter_keeps_all.
Qed.

(** The frame processor with a model that returns an output tensor: the
    live detections are what [parseYOLOv8Output] returns for the frame at the
    confidence threshold 0.4, all of it, and the crowd count is their
    number. *)
Theorem frameProcessor_counts_all (currentModel : FastTFLiteModel)
    (inputTensor outputTensor : list N) (frameWidth frameHeight : N) :
  run currentModel [inputTensor] !! 0%nat = Some outputTensor ->
  let parsed := parseYOLOv8Output outputTensor frameWidth frameHeight
                                  (decimal 4 10) (decimal 45 100) (ofZ 640) in
  frameProcessor (Some currentModel) inputTensor frameWidth frameHeight =
    Returns (Some {| crowdCount := length parsed; liveDetections := parsed |}).
Proof.
  intros Hrun. unfold frameProcessor. rewrite Hrun. cbv zeta.
  by rewrite person_filter_keeps_all.
Qed.

(** Every detection the frame processor reports is drawn: after the scaling
    to the preview, the test of the overlay (class 'person', confidence above
    0.4) accepts each detection found at the confidence threshold 0.4, so
    the overlay draws as many rectangles as the crowd count says. *)
Theorem live_detections_are_drawn (outputTensor : list N)
    (frameWidth frameHeight iouThreshold modelInputSize : N)
    (overlayScaleX overlayScaleY : N) :
  let live := parseYOLOv8Output outputTensor frameWidth frameHeight
                                (decimal 4 10) iouThreshold modelInputSize in
  let scaled := scaledLiveDetections overlayScaleX overlayScaleY live in
  Forall (fun det => isDrawn det = true) scaled /\
  BoundingBoxOverlay scaled =
    if (length live =? 0)%nat then None else Some (Some ∘ drawingOf <$> scaled).
Proof.
  intros live scaled.
  assert (Forall (fun det => isDrawn det = true) scaled) as Hdrawn.
  { unfold scaled, scaledLiveDetections. apply Forall_fmap.
    pose proof (parse_class_zero outputTensor frameWidth frameHeight
                  (decimal 4 10) iouThreshold modelInputSize) as Hclass.
    pose proof (parse_above_threshold outputTensor frameWidth frameHeight
                  (decimal 4 10) iouThreshold modelInputSize) as Hconf.
    fold live in Hclass, Hconf.
    apply Forall_forall. intros d Hd.
    pose proof (proj1 (Forall_forall _ _) Hclass d Hd) as Hc.
    pose proof (proj1 (Forall_forall _ _) Hconf d Hd) as Ht.
    cbv beta in Hc, Ht. unfold compose, isDrawn.
    destruct (box d) as [[[x1 y1] x2] y2].
    cbn [classId confidence]. by rewrite Hc, Ht. }
  split; [done|]. unfold BoundingBoxOverlay.
  replace (length scaled) with (length live)
    by (unfold scaled, scaledLiveDetections; by rewrite length_fmap).
  destruct (length live =? 0)%nat; [done|]. f_equal.
  induction Hdrawn as [|d l Hd _ IH]; csimpl; [done|]. by rewrite Hd, IH.
Qed.
End Callers.

(** ** The preview scaling and the drawings, in exact arithmetic *)

Lemma xq_mul_le_compat (a b : xq) (s : Qc) :
  (0 < s)%Qc -> xq_le a b = true -> xq_le (xq_mul a (Fin s)) (xq_mul b (Fin s)) = true.
Proof.
  intros Hs Hab. pose proof (proj1 (Qcgt_alt s 0) Hs) as Hsgn.
  destruct a as [p| | |], b as [q| | |]; try done; cbn [xq_mul xq_sgn sgn_mul xq_inf];
    rewrite ?Hsgn; try done.
  apply xq_le_finite. apply xq_le_finite_inv in Hab.
  unfold Qcle, Qclt in *. qc_arith. nra.
Qed.

(** Scaling to the preview by finite positive factors keeps the shape of a
    detection: the corners stay ordered, and the confidence and the class are
    kept. *)
Theorem scaling_keeps_shape (overlayScaleX overlayScaleY : Qc)
    (liveDetections : list (Detection xq)) :
  bool_decide (0 < overlayScaleX)%Qc = true ->
  bool_decide (0 < overlayScaleY)%Qc = true ->
  Forall wellShaped liveDetections ->
  Forall wellShaped
    (scaledLiveDetections (Fin overlayScaleX) (Fin overlayScaleY) liveDetections).
Proof.
  intros Hx Hy Hall. apply bool_decide_eq_true in Hx, Hy.
  unfold scaledLiveDetections. apply Forall_fmap.
  eapply Forall_impl; [exact Hall|]. intros d Hd. unfold compose, wellShaped in *.
  destruct (box d) as [[[x1 y1] x2] y2]. cbn [box confidence classId].
  destruct Hd as (Hxs & Hys & Hrest).
  split; [by apply xq_mul_le_compat|]. split; [by apply xq_mul_le_compat|done].
Qed.

(** The drawing of a detection with finite ordered corners: the rectangle
    starts at the first corner and has a width and a height that are not
    negative, and the label never sits above the line [y = 13]. *)
Theorem drawing_geometry (x1 y1 x2 y2 : Qc) (conf : xq) (class : Z) :
  wellFormed x1 y1 x2 y2 = true ->
  exists w h ty : Qc,
    drawingOf {| box := finiteBox x1 y1 x2 y2; confidence := conf; classId := class |} =
      {| rectX := Fin x1; rectY := Fin y1; rectWidth := Fin w; rectHeight := Fin h;
         textX := Fin (x1 + Q2Qc 2); textY := Fin ty |} /\
    (0 <= w)%Qc /\ (0 <= h)%Qc /\ (Q2Qc 13 <= ty)%Qc.
Proof.
  unfold wellFormed. intros Hwf. apply andb_true_iff in Hwf as [Hx Hy].
  apply bool_decide_eq_true in Hx, Hy.
  exists (x2 - x1)%Qc, (y2 - y1)%Qc,
    (match (y1 ?= Q2Qc 15)%Qc with Lt => Q2Qc 15 | _ => y1 - Q2Qc 2 end)%Qc.
  split; [|split; [|split]].
  - unfold drawingOf, finiteBox. cbn [box sub add lt ofZ xq_number xq_sub xq_add xq_neg xq_lt].
    change (Q2Qc (inject_Z 15)) with (Q2Qc 15). change (Q2Qc (inject_Z 2)) with (Q2Qc 2).
    by destruct (y1 ?= Q2Qc 15)%Qc.
  - unfold Qcle in *. qc_arith. lra.
  - unfold Qcle in *. qc_arith. lra.
  - unfold Qcle. qc_compare; qc_arith; (done || lra).
Qed.

(** ** The simulated inference of the home screen *)

From Stdlib Require Import Qround.

(** [Math.floor] *)
Definition Math_floor (a : xq) : xq :=
  match a with
  | Fin q => Fin (Q2Qc (inject_Z (Qfloor q)))
  | _ => a
  end.

(** [Math.random()]: the next draw of a stream of numbers, each in [0, 1),
    and the position behind it. *)
Definition Math_random (draws : nat -> xq) (position : nat) : xq * nat :=
  (draws position, S position).

Section Simulation.
Local Open Scope js_scope.
Variable draws : nat -> xq.
Variables imgWidth imgHeight : xq.

(** One pass of the loop body: the detection pushed, and the position in the
    stream of draws behind it. *)
Definition simulatedPerson (position : nat) : Detection xq * nat :=
  let '(r, position) := Math_random draws position in
  let x := r * imgWidth * decimal 8 10 in
  let '(r, position) := Math_random draws position in
  let y := r * imgHeight * decimal 8 10 in
  let '(r, position) := Math_random draws position in
  let w := r * (imgWidth * decimal 2 10) + ofZ 20 in
  let '(r, position) := Math_random draws position in
  let h := r * (imgHeight * decimal 2 10) + ofZ 20 in
  let '(r, position) := Math_random draws position in
  ({| box := (x, y, x + w, y + h);
      confidence := r * decimal 3 10 + decimal 6 10;
      classId := 0 |}, position).

(** [for (let i = 0; i < numPeople; i++)], with the iterations left as
    fuel. *)
Fixpoint simulateLoop (numPeople : xq) (fuel i position : nat)
    (detections : list (Detection xq)) : list (Detection xq) :=
  match fuel with
  | O => detections
  | S fuel' =>
      if ofZ (Z.of_nat i) <? numPeople then
        let '(person, position) := simulatedPerson position in
        simulateLoop numPeople fuel' (S i) position (detections ++ [person])
      else detections
  end.

(** [simulateYOLOv8Inference].  With draws in [0, 1) the loop ends by its
    test within 24 passes (see [simulateLoop_count]); it is given 25. *)
Definition simulateYOLOv8Inference : InferenceResult :=
  let '(r, position) := Math_random draws 0 in
  let numPeople := Math_floor (r * ofZ 20) + ofZ 5 in
  let detections := simulateLoop numPeople 25 0 position [] in
  {| detections := detections; count := length detections |}.
End Simulation.

(** A draw of [Math.random]: a number in [0, 1). *)
Definition unitDraw (r : xq) : bool := xq_le (Fin 0) r && xq_lt r (Fin 1).

Lemma unitDraw_finite (r : xq) :
  unitDraw r = true -> exists q : Qc, r = Fin q /\ (0 <= q)%Qc /\ (q < 1)%Qc.
Proof.
  unfold unitDraw. intros Hr. apply andb_true_iff in Hr as [H0 H1].
  destruct r as [q| | |]; try done. exists q. split; [done|].
  split; [by apply xq_le_finite_inv|].
  cbn [xq_lt] in H1. apply Qclt_alt. by destruct (q ?= 1)%Qc.
Qed.

Lemma decimal_value (n d : Z) (p : positive) :
  (Q2Qc (inject_Z d) ?= 0)%Qc = Gt ->
  (inject_Z n / inject_Z d == n # p)%Q ->
  @decimal xq _ n d = Fin (Q2Qc (n # p)).
Proof.
  intros Hd Hq. unfold decimal. cbn [div ofZ xq_number xq_div]. rewrite Hd.
  f_equal. apply Qc_is_canon. qc_arith. exact Hq.
Qed.

(** The loop test on an integer bound. *)
Lemma simulate_test (i : nat) (n : Z) :
  xq_lt (ofZ (Z.of_nat i)) (Fin (Q2Qc (inject_Z n))) = bool_decide (Z.of_nat i < n).
Proof.
  cbn [ofZ xq_number xq_lt].
  case_bool_decide as Hi.
  - rewrite Zlt_Qlt in Hi.
    qc_compare; try done; exfalso; qc_arith; lra.
  - apply Z.nlt_ge in Hi. rewrite Zle_Qle in Hi.
    qc_compare; try done; exfalso; qc_arith; lra.
Qed.

(** What every simulated detection looks like, for an image of width [w]
    and height [h]: class 0, a confidence from 0.6 up to 0.9, a first corner
    inside the image, corners in order, and it passes the test of the
    overlay. *)
Definition simulatedShape (w h : Qc) (d : Detection xq) : Prop :=
  exists x1 y1 x2 y2 conf : Qc,
    d = {| box := finiteBox x1 y1 x2 y2; confidence := Fin conf; classId := 0 |} /\
    (Q2Qc (3 # 5) <= conf)%Qc /\ (conf < Q2Qc (9 # 10))%Qc /\
    (0 <= x1)%Qc /\ (x1 <= w)%Qc /\ (0 <= y1)%Qc /\ (y1 <= h)%Qc /\
    (x1 <= x2)%Qc /\ (y1 <= y2)%Qc /\
    isDrawn d = true.

Section SimulationFacts.
Variable draws : nat -> xq.
Variables w h : Qc.
Hypothesis draws_in_unit : forall k, unitDraw (draws k) = true.
Hypothesis width_not_negative : (0 <= w)%Qc.
Hypothesis height_not_negative : (0 <= h)%Qc.

Lemma simulatedPerson_shape (position : nat) :
  simulatedShape w h (simulatedPerson draws (Fin w) (Fin h) position).1.
Proof.
  unfold simulatedPerson, Math_random.
  destruct (unitDraw_finite _ (draws_in_unit position)) as (r1 & -> & ? & ?).
  destruct (unitDraw_finite _ (draws_in_unit (S position))) as (r2 & -> & ? & ?).
  destruct (unitDraw_finite _ (draws_in_unit (S (S position)))) as (r3 & -> & ? & ?).
  destruct (unitDraw_finite _ (draws_in_unit (S (S (S position))))) as (r4 & -> & ? & ?).
  destruct (unitDraw_finite _ (draws_in_unit (S (S (S (S position)))))) as (r5 & -> & ? & ?).
  rewrite (decimal_value 8 10 10), (decimal_value 2 10 10),
    (decimal_value 3 10 10), (decimal_value 6 10 10) by reflexivity.
  cbn [fst mul add ofZ xq_number xq_mul xq_add].
  eexists _, _, _, _, _. split; [reflexivity|].
  unfold Qcle, Qclt in *.
  repeat split; try (qc_arith; nra);
    try (qc_arith; change (inject_Z 20) with 20%Q;
         assert (0 <= r3 * w)%Q by nra; assert (0 <= r4 * h)%Q by nra; nra).
  unfold isDrawn. cbn [classId confidence].
  rewrite (decimal_value 4 10 10) by reflexivity.
  change (isPerson 0) with true. cbn [andb lt xq_number xq_lt].
  qc_compare; try done; exfalso; qc_arith; nra.
Qed.

Lemma simulateLoop_shape (numPeople : xq) (fuel i position : nat)
    (detections : list (Detection xq)) :
  Forall (simulatedShape w h) detections ->
  Forall (simulatedShape w h)
         (simulateLoop draws (Fin w) (Fin h) numPeople fuel i position detections).
Proof.
  revert i position detections.
  induction fuel as [|fuel IH]; intros i position detections Hall; cbn [simulateLoop]; [done|].
  destruct (lt _ _); [|done].
  pose proof (simulatedPerson_shape position) as Hperson.
  destruct (simulatedPerson draws (Fin w) (Fin h) position) as [person position'].
  apply IH. apply Forall_app. split; [done|]. by constructor.
Qed.

Lemma simulateLoop_count (n : Z) (fuel i position : nat)
    (detections : list (Detection xq)) :
  n - Z.of_nat i <= Z.of_nat fuel ->
  length (simulateLoop draws (Fin w) (Fin h) (Fin (Q2Qc (inject_Z n)))
                       fuel i position detections)
  = (length detections + Z.to_nat (n - Z.of_nat i))%nat.
Proof.
  revert i position detections.
  induction fuel as [|fuel IH]; intros i position detections Hfuel; cbn [simulateLoop].
  - replace (Z.to_nat (n - Z.of_nat i)) with 0%nat by lia. lia.
  - rewrite simulate_test. case_bool_decide as Hi.
    + destruct (simulatedPerson draws (Fin w) (Fin h) position) as [person position'].
      rewrite IH by lia. rewrite length_app. cbn [length]. lia.
    + replace (Z.to_nat (n - Z.of_nat i)) with 0%nat by lia. lia.
Qed.

(** The number of people is [floor (20 r) + 5] for the first draw [r]. *)
Lemma numPeople_value :
  exists n : Z,
    5 <= n <= 24 /\
    add (Math_floor (mul (draws 0%nat) (ofZ 20))) (ofZ 5) = Fin (Q2Qc (inject_Z n)).
Proof.
  destruct (unitDraw_finite _ (draws_in_unit 0%nat)) as (r & -> & Hr0 & Hr1).
  cbn [mul add ofZ xq_number xq_mul xq_add Math_floor].
  set (x := (r * Q2Qc (inject_Z 20))%Qc).
  exists (Qfloor x + 5). split.
  - assert (x == r * 20)%Q as Hx by (unfold x; qc_arith; reflexivity).
    unfold Qcle, Qclt in Hr0, Hr1. cbn [this Q2Qc] in Hr0, Hr1.
    rewrite Qred_correct in Hr0, Hr1.
    assert (0 <= x)%Q as Hx0 by lra.
    assert (x < 20)%Q as Hx1 by lra.
    pose proof (Qfloor_le x) as Hfloor.
    pose proof (Qfloor_resp_le _ _ Hx0) as Hfloor0. change (Qfloor 0) with 0 in Hfloor0.
    assert (inject_Z (Qfloor x) < inject_Z 20)%Q as Hlt by (change (inject_Z 20) with 20%Q; lra).
    rewrite <- Zlt_Qlt in Hlt. lia.
  - f_equal. apply Qc_is_canon. qc_arith. rewrite inject_Z_plus. reflexivity.
Qed.

(** The simulation returns between 5 and 24 detections and counts them
    all. *)
Theorem simulated_count :
  let result := simulateYOLOv8Inference draws (Fin w) (Fin h) in
  count result = length (detections result) /\ (5 <= count result <= 24)%nat.
Proof.
  unfold simulateYOLOv8Inference, Math_random. cbn [count detections].
  split; [done|].
  destruct numPeople_value as (n & Hn & ->).
  rewrite simulateLoop_count by lia. cbn [length]. lia.
Qed.

(** Every simulated detection is a person with a confidence from 0.6 up to
    0.9 and a box with ordered corners that starts inside the image, and the
    overlay draws it. *)
Theorem simulated_detections :
  Forall (simulatedShape w h)
         (detections (simulateYOLOv8Inference draws (Fin w) (Fin h))).
Proof.
  unfold simulateYOLOv8Inference, Math_random. cbn [detections].
  apply simulateLoop_shape. constructor.
Qed.
End SimulationFacts.

(** ** The further properties on sample inputs *)

(** Two boxes that lie apart. *)
Definition apartBoxes : list (Box xq) :=
  [ (frac 0 1, frac 0 1, frac 50 1, frac 50 1);
    (frac 200 1, frac 200 1, frac 250 1, frac 250 1) ].
Definition apartConfidences : list xq := [frac 4 5; frac 9 10].

(** A model that returns one record for every input. *)
Definition sampleModel : FastTFLiteModel :=
  {| run := fun _ =>
       [personRecord (frac 1 2) (frac 1 2) (frac 1 5) (frac 1 5) (frac 1 1) (frac 1 1)] |}.

Lemma selected_are_entries_witness :
  let selected := nonMaxSuppression sampleBoxes sampleConfidences default_iouThreshold in
  NoDup (originalIndex <$> selected) /\
  Forall (fun s => sampleBoxes !! originalIndex s = Some (selectedBox s) /\
                   sampleConfidences !! originalIndex s = Some (selectedConfidence s))
         selected.
Proof. apply selected_are_entries. reflexivity. Defined.

Lemma selected_are_apart_witness :
  StronglySorted
    (fun s k => xq_lt default_iouThreshold (calculateIOU (selectedBox s) (selectedBox k)) = false)
    (nonMaxSuppression sampleBoxes sampleConfidences default_iouThreshold).
Proof.
  exact (selected_are_apart sampleBoxes sampleConfidences default_iouThreshold eq_refl).
Defined.

Lemma dropped_are_overlapped_witness :
  0%nat ∈ originalIndex <$> nonMaxSuppression sampleBoxes sampleConfidences default_iouThreshold \/
  Exists (fun s => xq_lt default_iouThreshold
                     (calculateIOU (selectedBox s) (frac 5 1, frac 5 1, frac 95 1, frac 95 1)) = true)
         (nonMaxSuppression sampleBoxes sampleConfidences default_iouThreshold).
Proof.
  exact (dropped_are_overlapped sampleBoxes sampleConfidences default_iouThreshold
           eq_refl 0%nat _ eq_refl).
Defined.

Lemma selected_count_witness :
  (0 < length (nonMaxSuppression sampleBoxes sampleConfidences default_iouThreshold)
   <= length sampleBoxes)%nat.
Proof. apply selected_count; [reflexivity|discriminate]. Defined.

Lemma apart_are_all_selected_witness :
  originalIndex <$> nonMaxSuppression apartBoxes apartConfidences default_iouThreshold =
    sortedIndices apartConfidences /\
  length (nonMaxSuppression apartBoxes apartConfidences default_iouThreshold) =
    length apartBoxes.
Proof.
  apply apart_are_all_selected; [reflexivity|].
  intros [|[|i]] [|[|j]] bi bj Hne Hi Hj; try done;
    injection Hi as <-; injection Hj as <-; reflexivity.
Defined.

Lemma selected_are_descending_witness :
  StronglySorted
    (fun s k => xq_lt (selectedConfidence s) (selectedConfidence k) = false)
    (nonMaxSuppression sampleBoxes sampleConfidences default_iouThreshold).
Proof.
  apply selected_are_descending; [reflexivity|].
  repeat constructor; discriminate.
Defined.

Lemma best_is_selected_first_witness :
  exists s rest,
    nonMaxSuppression sampleBoxes sampleConfidences default_iouThreshold = s :: rest /\
    Forall (fun conf => xq_lt (selectedConfidence s) conf = false) sampleConfidences.
Proof.
  apply best_is_selected_first; [reflexivity| |discriminate].
  repeat constructor; discriminate.
Defined.

Lemma zero_objectness_yields_nothing_witness :
  parseYOLOv8Output
    (personRecord (frac 1 2) (frac 1 2) (frac 1 5) (frac 1 5) (frac 0 1) (frac 1 1))
    (frac 1280 1) (frac 960 1)
    default_confidenceThreshold default_iouThreshold default_modelInputSize = [].
Proof. apply zero_objectness_yields_nothing; reflexivity. Defined.

Lemma performInference_returns_all_witness :
  let parsed :=
    parseYOLOv8Output
      (personRecord (frac 1 2) (frac 1 2) (frac 1 5) (frac 1 5) (frac 1 1) (frac 1 1))
      (frac 1280 1) (frac 960 1) (decimal 25 100) (decimal 45 100) (ofZ 640) in
  performInference (Some sampleModel) [] (frac 1280 1) (frac 960 1) =
    Returns {| detections := parsed; count := length parsed |}.
Proof. apply (performInference_returns_all sampleModel). reflexivity. Defined.

Lemma frameProcessor_counts_all_witness :
  let parsed :=
    parseYOLOv8Output
      (personRecord (frac 1 2) (frac 1 2) (frac 1 5) (frac 1 5) (frac 1 1) (frac 1 1))
      (frac 1280 1) (frac 960 1) (decimal 4 10) (decimal 45 100) (ofZ 640) in
  frameProcessor (Some sampleModel) [] (frac 1280 1) (frac 960 1) =
    Returns (Some {| crowdCount := length parsed; liveDetections := parsed |}).
Proof. apply (frameProcessor_counts_all sampleModel). reflexivity. Defined.

Lemma scaling_keeps_shape_witness :
  Forall wellShaped
    (scaledLiveDetections (Fin (Q2Qc (1 # 3))) (Fin (Q2Qc (1 # 3)))
       (parseYOLOv8Output
          (personRecord (frac 1 2) (frac 1 2) (frac 1 5) (frac 1 5) (frac 1 1) (frac 1 1))
          (frac 1280 1) (frac 960 1)
          default_confidenceThreshold default_iouThreshold default_modelInputSize)).
Proof.
  apply scaling_keeps_shape; [reflexivity|reflexivity|].
  vm_compute. repeat constructor; discriminate.
Defined.

Lemma drawing_geometry_witness :
  exists w h ty : Qc,
    drawingOf {| box := finiteBox (Q2Qc 10) (Q2Qc 4) (Q2Qc 60) (Q2Qc 90);
                 confidence := frac 9 10; classId := 0 |} =
      {| rectX := Fin (Q2Qc 10); rectY := Fin (Q2Qc 4);
         rectWidth := Fin w; rectHeight := Fin h;
         textX := Fin (Q2Qc 10 + Q2Qc 2); textY := Fin ty |} /\
    (0 <= w)%Qc /\ (0 <= h)%Qc /\ (Q2Qc 13 <= ty)%Qc.
Proof. apply drawing_geometry. reflexivity. Defined.

Lemma simulated_count_witness :
  let result := simulateYOLOv8Inference (fun _ => frac 1 2) (Fin (Q2Qc 640)) (Fin (Q2Qc 480)) in
  count result = length (detections result) /\ (5 <= count result <= 24)%nat.
Proof. apply simulated_count. intros k. reflexivity. Defined.

Lemma simulated_detections_witness :
  Forall (simulatedShape (Q2Qc 640) (Q2Qc 480))
         (detections (simulateYOLOv8Inference (fun _ => frac 1 2)
                                              (Fin (Q2Qc 640)) (Fin (Q2Qc 480)))).
Proof. apply simulated_detections; [intros k; reflexivity|done|done]. Defined.
